(** * The message buffer of the chat demo (chatdemo.py)

    A shallow embedding of [MessageBuffer]: the registry of rooms, the
    bounded per-room cache of messages, the per-room set of waiting
    futures, and the four methods [create_new_room], [wait_for_messages],
    [cancel_wait] and [new_messages]. *)

From Stdlib Require Import Ascii.
From stdpp Require Import gmap strings list fin_maps pretty.

Open Scope string_scope.
Open Scope list_scope.
Open Scope nat_scope.

(** ** Data model *)

(** A message is the dict built by [MessageNewHandler.post]: the keys
    "id", "timestamp" and "body", all strings. *)
Record Message := {
  msg_id : string;        (* msg["id"] *)
  timestamp : string;     (* msg["timestamp"] *)
  body : string           (* msg["body"] *)
}.

(** A [Future] object is kept in a heap and named by its address.  Its
    contents are the values handed to [set_result], oldest first: a
    pending future has none, a future resolved once has exactly one. *)
Abbreviation Future := (list (list Message)).

(** [self.room[name]]: the dict with the keys 'cache' and 'waiters'. *)
Record Room := {
  cache : list Message;   (* newest last *)
  waiters : gset nat      (* addresses of the futures waiting *)
}.

(** The object itself, with the heap of the futures it has created. *)
Record MessageBuffer := {
  room : gmap string Room;
  cache_size : nat;
  futures : list Future
}.

(** [MessageBuffer.__init__] *)
Definition init : MessageBuffer :=
  {| room := ∅; cache_size := 200; futures := [] |}.

Definition empty_room : Room := {| cache := []; waiters := ∅ |}.

(** ** Primitive updates *)

(** [self.room[r] = R] *)
Definition set_room (r : string) (R : Room) (s : MessageBuffer) : MessageBuffer :=
  {| room := <[r := R]> (room s);
     cache_size := cache_size s;
     futures := futures s |}.

(** [Future()]: a new pending future at a new address. *)
Definition new_future (s : MessageBuffer) : nat * MessageBuffer :=
  (length (futures s),
   {| room := room s;
      cache_size := cache_size s;
      futures := futures s ++ [[]] |}).

(** [future.set_result(v)] *)
Definition set_result (f : nat) (v : list Message) (s : MessageBuffer) : MessageBuffer :=
  {| room := room s;
     cache_size := cache_size s;
     futures := alter (λ F, F ++ [v]) f (futures s) |}.

(** The Python slice [l[-n:]]: the last [n] elements for a positive [n]
    (all of [l] when it has fewer), and, since [-0] is [0], all of [l]
    for [n = 0]. *)
Definition slice_last {A} (n : nat) (l : list A) : list A :=
  match n with
  | 0 => l
  | _ => drop (length l - n) l
  end.

(** ** The methods *)

(** [create_new_room] always returns [True]. *)
Definition create_new_room (s : MessageBuffer) (r : string) : bool * MessageBuffer :=
  match room s !! r with
  | None => (true, set_room r empty_room s)
  | Some _ => (true, s)
  end.

(** The loop of [wait_for_messages] over [reversed(cache)]: the number
    of messages met before the first one whose id is the cursor. *)
Fixpoint count_new (cursor : string) (reversed : list Message) : nat :=
  match reversed with
  | [] => 0
  | msg :: rest =>
      if decide (msg_id msg = cursor) then 0
      else S (count_new cursor rest)
  end.

(** [self.room[r]['waiters'].add(f)] *)
Definition add_waiter (r : string) (f : nat) (s : MessageBuffer) : option MessageBuffer :=
  R ← room s !! r;
  Some (set_room r {| cache := cache R; waiters := {[f]} ∪ waiters R |} s).

(** [wait_for_messages]: the future returned and the new state, or
    [None] for a [KeyError].  A cursor that is [None] or the empty
    string is false in [if cursor:]. *)
Definition wait_for_messages (s : MessageBuffer) (r : string) (cursor : option string)
  : option (nat * MessageBuffer) :=
  let s1 := (create_new_room s r).2 in
  let '(result_future, s2) := new_future s1 in
  let register := s3 ← add_waiter r result_future s2; Some (result_future, s3) in
  match cursor with
  | None => register
  | Some c =>
      if decide (c = "") then register
      else
        R ← room s2 !! r;
        let new_count := count_new c (rev (cache R)) in
        match new_count with
        | 0 => register
        | _ => Some (result_future,
                     set_result result_future (slice_last new_count (cache R)) s2)
        end
  end.

(** [cancel_wait]: [None] for the [KeyError] raised by [self.room[r]] on
    a missing room, or by [set.remove] on a future that is not in the
    set; both are raised before anything is changed. *)
Definition cancel_wait (s : MessageBuffer) (r : string) (f : nat) : option MessageBuffer :=
  R ← room s !! r;
  if decide (f ∈ waiters R) then
    Some (set_result f []
            (set_room r {| cache := cache R; waiters := waiters R ∖ {[f]} |} s))
  else None.

(** The statements of [new_messages] after the call of
    [create_new_room], one definition each. *)

(** [for future in self.room[r]['waiters']: future.set_result(messages)] *)
Definition resolve_waiters (r : string) (messages : list Message) (s : MessageBuffer)
  : option MessageBuffer :=
  R ← room s !! r;
  Some (foldl (λ s' f, set_result f messages s') s (elements (waiters R))).

(** [self.room[r]['waiters'] = set()] *)
Definition clear_waiters (r : string) (s : MessageBuffer) : option MessageBuffer :=
  R ← room s !! r;
  Some (set_room r {| cache := cache R; waiters := ∅ |} s).

(** [self.room[r]['cache'].extend(messages)] *)
Definition extend_cache (r : string) (messages : list Message) (s : MessageBuffer)
  : option MessageBuffer :=
  R ← room s !! r;
  Some (set_room r {| cache := cache R ++ messages; waiters := waiters R |} s).

(** [if len(cache) > self.cache_size: cache = cache[-self.cache_size:]] *)
Definition trim_cache (r : string) (s : MessageBuffer) : option MessageBuffer :=
  R ← room s !! r;
  if decide (cache_size s < length (cache R)) then
    Some (set_room r {| cache := slice_last (cache_size s) (cache R);
                        waiters := waiters R |} s)
  else Some s.

(** The body of [new_messages], in program order.  The call of
    [logging.info] between the first two statements reads the number of
    waiters and changes nothing. *)
Definition new_messages_body (r : string) (messages : list Message)
  : list (MessageBuffer → option MessageBuffer) :=
  [ λ s, Some (create_new_room s r).2;
    resolve_waiters r messages;
    clear_waiters r;
    extend_cache r messages;
    trim_cache r ].

(** Running statements one after the other; an exception stops the run. *)
Definition exec (stmts : list (MessageBuffer → option MessageBuffer)) (s : MessageBuffer)
  : option MessageBuffer :=
  foldl (λ o stmt, o ≫= stmt) (Some s) stmts.

Definition new_messages (s : MessageBuffer) (r : string) (messages : list Message)
  : option MessageBuffer :=
  exec (new_messages_body r messages) s.

(** ** Sequences of calls *)

Inductive call :=
  | CreateNewRoom (r : string)
  | WaitForMessages (r : string) (cursor : option string)
  | CancelWait (r : string) (f : nat)
  | NewMessages (r : string) (messages : list Message).

(** One call on the buffer.  A call that raises leaves the buffer as it
    was: the only exceptions are raised before any update. *)
Definition step (s : MessageBuffer) (c : call) : MessageBuffer :=
  match c with
  | CreateNewRoom r => (create_new_room s r).2
  | WaitForMessages r cursor => from_option snd s (wait_for_messages s r cursor)
  | CancelWait r f => default s (cancel_wait s r f)
  | NewMessages r messages => default s (new_messages s r messages)
  end.

Definition run (s : MessageBuffer) (calls : list call) : MessageBuffer :=
  foldl step s calls.

(** ** Observations *)

Definition cache_of (s : MessageBuffer) (r : string) : list Message :=
  from_option cache [] (room s !! r).

Definition waiters_of (s : MessageBuffer) (r : string) : gset nat :=
  from_option waiters ∅ (room s !! r).

(** What a future has been resolved with, oldest first. *)
Definition results (s : MessageBuffer) (f : nat) : list (list Message) :=
  default [] (futures s !! f).

(** A message with a given id, for the scenarios. *)
Definition msg (i : string) : Message :=
  {| msg_id := i; timestamp := "0"; body := i |}.

(** Messages numbered from 1, as in the scenario of the 205 messages. *)
Definition numbered (i : nat) : Message :=
  {| msg_id := pretty i; timestamp := "0"; body := "" |}.

(** ** The vocabulary of the statements *)

(** The loop of [new_messages] seen on the heap alone. *)
Definition resolve_all (v : list Message) (fs : list nat) (F : list Future) : list Future :=
  foldl (λ F' f, alter (λ x, x ++ [v]) f F') F fs.

(** What [trim_cache] leaves of a cache. *)
Definition trimmed (n : nat) (c : list Message) : list Message :=
  if decide (n < length c) then slice_last n c else c.

(** The count that decides between replay and registration: [0] when
    [if cursor:] is not taken, the result of the loop otherwise. *)
Definition new_count_of (cursor : option string) (c : list Message) : nat :=
  match cursor with
  | None => 0
  | Some i => if decide (i = "") then 0 else count_new i (rev c)
  end.

(** Every future that waits in a room is pending, it waits in one room
    only, and no future has been resolved twice. *)
Record inv (s : MessageBuffer) : Prop := Inv {
  inv_pending : ∀ r f, f ∈ waiters_of s r → futures s !! f = Some [];
  inv_disjoint : ∀ r1 r2 f, f ∈ waiters_of s r1 → f ∈ waiters_of s r2 → r1 = r2;
  inv_once : ∀ f F, futures s !! f = Some F → length F ≤ 1
}.

(** The last [n] elements of a list (all of it when it has fewer). *)
Definition last_n {A} (n : nat) (l : list A) : list A := drop (length l - n) l.

(** The messages published to room [r] by a sequence of calls, in the
    order of their arrival. *)
Fixpoint published (r : string) (calls : list call) : list Message :=
  match calls with
  | [] => []
  | NewMessages r' messages :: rest =>
      if decide (r' = r) then messages ++ published r rest else published r rest
  | _ :: rest => published r rest
  end.

(** The ids that [MessageNewHandler.post] gives to messages: distinct,
    and never the empty string. *)
Definition unique_ids (c : list Message) : Prop :=
  NoDup (map msg_id c) ∧ "" ∉ map msg_id c.

(** The futures that a call resolves: the one cancelled, when it waits
    in the room, and all those that wait in the room of a publication. *)
Definition touches (s : MessageBuffer) (c : call) (f : nat) : Prop :=
  match c with
  | CancelWait r g => g = f ∧ f ∈ waiters_of s r
  | NewMessages r _ => f ∈ waiters_of s r
  | _ => False
  end.

(** The calls that resolve the future [f] that waits in room [r]: a
    publication to [r], and the cancellation of [f] in [r]. *)
Definition targets (r : string) (f : nat) (c : call) : bool :=
  match c with
  | NewMessages r' _ => bool_decide (r' = r)
  | CancelWait r' g => bool_decide (r' = r ∧ g = f)
  | _ => false
  end.

(** ** The request handlers *)

(** [MainHandler.get]: what is rendered, if anything (the messages and
    the room handed to the template), and the new state; [None] for a
    [KeyError].  [room_arg] is [self.get_argument("room", None)]. *)
Definition MainHandler_get (s : MessageBuffer) (room_arg : option string)
  : option (option (list Message * string) * MessageBuffer) :=
  match room_arg with
  | None => Some (None, s)
  | Some r =>
      if decide (r = "") then Some (None, s)
      else
        let s' := (create_new_room s r).2 in
        R ← room s' !! r;
        Some (Some (cache R, r), s')
  end.

(** [x.split('.')[0]]: what stands before the first dot. *)
Fixpoint before_dot (x : string) : string :=
  match x with
  | EmptyString => EmptyString
  | String a rest => if decide (a = "."%char) then EmptyString else String a (before_dot rest)
  end.

(** What [MessageNewHandler.post] answers. *)
Inductive reply :=
  | Redirect (url : string)      (* self.redirect(url) *)
  | Written (message : Message). (* self.write(message) *)

(** [MessageNewHandler.post] for a request that names its room.  [uuid]
    is [str(uuid.uuid4())] and [clock] is [str(time.time())]; [body_arg]
    is [self.get_argument("body")], which raises when the argument is
    missing, and [next_arg] is [self.get_argument("next", None)].
    [self.redirect] is the framework's: [redirect url] tells whether
    the call [self.redirect(url)] returns; when it raises instead (it
    does for a value that may not stand in the Location header), the
    handler stops there, before the call of [new_messages].  [None]
    stands for an exception. *)
Definition MessageNewHandler_post (redirect : string → bool) (s : MessageBuffer)
    (uuid clock : string) (body_arg next_arg : option string) (r : string)
  : option (reply * MessageBuffer) :=
  b ← body_arg;
  let message := {| msg_id := uuid; timestamp := before_dot clock; body := b |} in
  answer ←
    match next_arg with
    | None => Some (Written message)
    | Some url =>
        if decide (url = "") then Some (Written message)
        else if redirect url then Some (Redirect url)
        else None
    end;
  s' ← new_messages s r [message];
  Some (answer, s').

(** ** More vocabulary *)

(** The room that a call names. *)
Definition call_room (c : call) : string :=
  match c with
  | CreateNewRoom r | WaitForMessages r _ | CancelWait r _ | NewMessages r _ => r
  end.

(** The room that a call creates when it is missing: every method but
    [cancel_wait] starts with [create_new_room]. *)
Definition creates (c : call) : gset string :=
  match c with
  | CancelWait _ _ => ∅
  | CreateNewRoom r | WaitForMessages r _ | NewMessages r _ => {[r]}
  end.

Definition rooms_named (calls : list call) : gset string :=
  ⋃ (creates <$> calls).

(** The number of calls of [wait_for_messages] in a sequence. *)
Fixpoint waits (calls : list call) : nat :=
  match calls with
  | [] => 0
  | WaitForMessages _ _ :: rest => S (waits rest)
  | _ :: rest => waits rest
  end.

(** * Proofs *)

(** ** The heap of futures *)

Lemma alter_snoc {A} (g : A → A) (l : list A) (x : A) :
  alter g (length l) (l ++ [x]) = l ++ [g x].
Proof. rewrite <- (Nat.add_0_r (length l)). by rewrite alter_app_r. Qed.

Lemma foldl_set_result v fs s :
  foldl (λ s' f, set_result f v s') s fs =
  {| room := room s; cache_size := cache_size s;
     futures := resolve_all v fs (futures s) |}.
Proof.
  revert s. induction fs as [|f fs IH]; intros s; simpl.
  - by destruct s.
  - rewrite IH. reflexivity.
Qed.

Lemma resolve_all_length v fs F : length (resolve_all v fs F) = length F.
Proof.
  revert F. induction fs as [|f fs IH]; intros F; simpl; [done|].
  unfold resolve_all in *. simpl. rewrite IH. apply length_alter.
Qed.

Lemma resolve_all_notin v fs (F : list Future) f :
  f ∉ fs → resolve_all v fs F !! f = F !! f.
Proof.
  revert F. induction fs as [|g fs IH]; intros F Hf; [done|].
  apply not_elem_of_cons in Hf as [Hne Hf].
  unfold resolve_all in *. simpl. rewrite IH by done.
  by rewrite list_lookup_alter_ne.
Qed.

Lemma resolve_all_in v fs (F : list Future) f :
  NoDup fs → f ∈ fs → resolve_all v fs F !! f = (λ x, x ++ [v]) <$> F !! f.
Proof.
  revert F. induction fs as [|g fs IH]; intros F Hnd Hf.
  - by apply elem_of_nil in Hf.
  - apply NoDup_cons in Hnd as [Hg Hnd].
    change (resolve_all v (g :: fs) F) with (resolve_all v fs (alter (λ x, x ++ [v]) g F)).
    apply elem_of_cons in Hf as [->|Hf].
    + rewrite resolve_all_notin by done. apply list_lookup_alter_eq.
    + rewrite IH by done. rewrite list_lookup_alter_ne; [done|].
      intros ->. done.
Qed.

(** ** Closed forms of the methods *)

Lemma create_new_room_room s r :
  room (create_new_room s r).2 = <[r := default empty_room (room s !! r)]> (room s).
Proof.
  unfold create_new_room. destruct (room s !! r) as [R|] eqn:E; simpl.
  - symmetry. by apply insert_id.
  - done.
Qed.

Lemma create_new_room_lookup s r :
  room (create_new_room s r).2 !! r = Some (default empty_room (room s !! r)).
Proof. rewrite create_new_room_room. apply lookup_insert_eq. Qed.

Lemma create_new_room_futures s r : futures (create_new_room s r).2 = futures s.
Proof. unfold create_new_room. by destruct (room s !! r). Qed.

Lemma create_new_room_cache_size s r : cache_size (create_new_room s r).2 = cache_size s.
Proof. unfold create_new_room. by destruct (room s !! r). Qed.

Lemma new_messages_eq s r messages :
  let R := default empty_room (room s !! r) in
  new_messages s r messages =
  Some {| room := <[r := {| cache := trimmed (cache_size s) (cache R ++ messages);
                            waiters := ∅ |}]> (room s);
          cache_size := cache_size s;
          futures := resolve_all messages (elements (waiters R)) (futures s) |}.
Proof.
  intros R. unfold new_messages, exec, new_messages_body. simpl.
  unfold resolve_waiters. rewrite create_new_room_lookup. simpl.
  rewrite foldl_set_result, create_new_room_futures, create_new_room_cache_size.
  fold R.
  unfold clear_waiters. simpl. rewrite create_new_room_lookup. simpl.
  unfold extend_cache, set_room. simpl. rewrite lookup_insert_eq. simpl.
  unfold trim_cache. simpl. rewrite lookup_insert_eq. simpl.
  unfold trimmed. fold R.
  rewrite create_new_room_room. fold R.
  destruct (decide (cache_size s < length (cache R ++ messages))); simpl.
  - unfold set_room. simpl. f_equal. f_equal. by rewrite !insert_insert_eq.
  - f_equal. f_equal. by rewrite !insert_insert_eq.
Qed.

Lemma wait_for_messages_eq s r cursor :
  let R := default empty_room (room s !! r) in
  let f := length (futures s) in
  wait_for_messages s r cursor =
  Some (f,
        match new_count_of cursor (cache R) with
        | 0 =>
            {| room := <[r := {| cache := cache R; waiters := {[f]} ∪ waiters R |}]> (room s);
               cache_size := cache_size s;
               futures := futures s ++ [[]] |}
        | n =>
            {| room := <[r := R]> (room s);
               cache_size := cache_size s;
               futures := futures s ++ [[slice_last n (cache R)]] |}
        end).
Proof.
  intros R f. unfold wait_for_messages, new_future, add_waiter. simpl.
  rewrite create_new_room_lookup, create_new_room_futures,
    create_new_room_cache_size, create_new_room_room. fold R f. simpl.
  unfold set_room. simpl. rewrite insert_insert_eq.
  destruct cursor as [c|]; simpl; [|done].
  destruct (decide (c = "")); [done|].
  destruct (count_new c (rev (cache R))) as [|k]; [done|].
  unfold set_result. simpl. do 3 f_equal.
  unfold f. by rewrite alter_snoc.
Qed.

Lemma cancel_wait_eq s r f R :
  room s !! r = Some R → f ∈ waiters R →
  cancel_wait s r f =
  Some {| room := <[r := {| cache := cache R; waiters := waiters R ∖ {[f]} |}]> (room s);
          cache_size := cache_size s;
          futures := alter (λ x, x ++ [[]]) f (futures s) |}.
Proof.
  intros HR Hf. unfold cancel_wait. rewrite HR. simpl.
  by rewrite decide_True.
Qed.

Lemma cancel_wait_None s r f :
  cancel_wait s r f = None ↔ f ∉ waiters_of s r.
Proof.
  unfold cancel_wait, waiters_of. destruct (room s !! r) as [R|]; simpl.
  - destruct (decide (f ∈ waiters R)); naive_solver.
  - split; [set_solver|done].
Qed.

Lemma cancel_wait_Some s r f s' : cancel_wait s r f = Some s' → f ∈ waiters_of s r.
Proof.
  intros E. destruct (decide (f ∈ waiters_of s r)) as [|Hn]; [done|].
  apply cancel_wait_None in Hn. congruence.
Qed.

(** ** What each method does to the observations *)

Lemma cache_default (o : option Room) : cache (default empty_room o) = from_option cache [] o.
Proof. by destruct o. Qed.

Lemma waiters_default (o : option Room) :
  waiters (default empty_room o) = from_option waiters ∅ o.
Proof. by destruct o. Qed.

Lemma cache_of_insert s s' r R r' :
  room s' = <[r := R]> (room s) →
  cache_of s' r' = if decide (r' = r) then cache R else cache_of s r'.
Proof.
  intros E. unfold cache_of. rewrite E. destruct (decide (r' = r)) as [->|].
  - by rewrite lookup_insert_eq.
  - by rewrite lookup_insert_ne.
Qed.

Lemma waiters_of_insert s s' r R r' :
  room s' = <[r := R]> (room s) →
  waiters_of s' r' = if decide (r' = r) then waiters R else waiters_of s r'.
Proof.
  intros E. unfold waiters_of. rewrite E. destruct (decide (r' = r)) as [->|].
  - by rewrite lookup_insert_eq.
  - by rewrite lookup_insert_ne.
Qed.

Lemma create_new_room_cache_of s r r' :
  cache_of (create_new_room s r).2 r' = cache_of s r'.
Proof.
  rewrite (cache_of_insert s _ r _ r' (create_new_room_room s r)).
  case_decide; [subst; apply cache_default|done].
Qed.

Lemma create_new_room_waiters_of s r r' :
  waiters_of (create_new_room s r).2 r' = waiters_of s r'.
Proof.
  rewrite (waiters_of_insert s _ r _ r' (create_new_room_room s r)).
  case_decide; [subst; apply waiters_default|done].
Qed.

(** [new_messages] never raises; the cache of the room becomes the old
    cache followed by the batch, trimmed; its waiters are gone, each of
    them resolved with the batch. *)
Lemma new_messages_obs s r messages :
  ∃ s', new_messages s r messages = Some s'
    ∧ cache_size s' = cache_size s
    ∧ (∀ r', cache_of s' r' =
         if decide (r' = r) then trimmed (cache_size s) (cache_of s r ++ messages)
         else cache_of s r')
    ∧ (∀ r', waiters_of s' r' = if decide (r' = r) then ∅ else waiters_of s r')
    ∧ futures s' = resolve_all messages (elements (waiters_of s r)) (futures s).
Proof.
  eexists. split; [apply new_messages_eq|]. simpl.
  split; [done|]. split; [|split].
  - intros r'. erewrite cache_of_insert by reflexivity. simpl.
    by rewrite cache_default.
  - intros r'. by erewrite waiters_of_insert by reflexivity.
  - by rewrite waiters_default.
Qed.

(** [wait_for_messages] never raises and returns a new future; it
    either resolves it at once with the end of the cache, or adds it to
    the waiters; the caches are left as they are. *)
Lemma wait_for_messages_obs s r cursor :
  let f := length (futures s) in
  let n := new_count_of cursor (cache_of s r) in
  ∃ s', wait_for_messages s r cursor = Some (f, s')
    ∧ cache_size s' = cache_size s
    ∧ (∀ r', cache_of s' r' = cache_of s r')
    ∧ (∀ r', waiters_of s' r' =
         if decide (r' = r ∧ n = 0) then {[f]} ∪ waiters_of s r else waiters_of s r')
    ∧ futures s' =
         futures s ++ [match n with 0 => [] | _ => [slice_last n (cache_of s r)] end].
Proof.
  intros f n. pose proof (wait_for_messages_eq s r cursor) as E.
  cbv zeta in E. rewrite cache_default in E.
  fold (cache_of s r) in E. fold n f in E. rewrite E. clear E.
  eexists. split; [reflexivity|].
  destruct n as [|k] eqn:En.
  - split; [done|]. split; [|split; [|done]].
    + intros r'. erewrite cache_of_insert by reflexivity. simpl.
      case_decide; by subst.
    + intros r'. erewrite waiters_of_insert by reflexivity. simpl.
      rewrite waiters_default. fold (waiters_of s r).
      destruct (decide (r' = r)) as [->|].
      * by rewrite decide_True.
      * rewrite decide_False; [done|]. by intros [? _].
  - split; [done|]. split; [|split; [|done]].
    + intros r'. erewrite cache_of_insert by reflexivity.
      rewrite cache_default. case_decide; by subst.
    + intros r'. erewrite waiters_of_insert by reflexivity.
      rewrite waiters_default. fold (waiters_of s r).
      rewrite (decide_False (P := r' = r ∧ S k = 0)) by (by intros [_ ?]).
      case_decide; by subst.
Qed.

(** [cancel_wait] on a future that waits in the room. *)
Lemma cancel_wait_obs s r f :
  f ∈ waiters_of s r →
  ∃ s', cancel_wait s r f = Some s'
    ∧ cache_size s' = cache_size s
    ∧ (∀ r', cache_of s' r' = cache_of s r')
    ∧ (∀ r', waiters_of s' r' =
         if decide (r' = r) then waiters_of s r ∖ {[f]} else waiters_of s r')
    ∧ futures s' = alter (λ x, x ++ [[]]) f (futures s).
Proof.
  intros Hf. unfold waiters_of in Hf.
  destruct (room s !! r) as [R|] eqn:HR; simpl in Hf; [|set_solver].
  eexists. split; [by apply cancel_wait_eq|]. simpl.
  split; [done|]. split; [|split; [|done]].
  - intros r'. erewrite cache_of_insert by reflexivity. simpl.
    case_decide; [subst; unfold cache_of; by rewrite HR|done].
  - intros r'. erewrite waiters_of_insert by reflexivity. simpl.
    case_decide; [subst; unfold waiters_of; by rewrite HR|done].
Qed.

(** ** The invariant of the buffer *)

Lemma inv_init : inv init.
Proof.
  split.
  - intros r f. unfold waiters_of. simpl. rewrite lookup_empty. set_solver.
  - intros r1 r2 f. unfold waiters_of. simpl. rewrite lookup_empty. set_solver.
  - intros f F. simpl. by rewrite lookup_nil.
Qed.

Lemma inv_create_new_room s r : inv s → inv (create_new_room s r).2.
Proof.
  intros [Hp Hd Ho]. split.
  - intros r' f. rewrite create_new_room_waiters_of, create_new_room_futures. apply Hp.
  - intros r1 r2 f. rewrite !create_new_room_waiters_of. apply Hd.
  - intros f F. rewrite create_new_room_futures. apply Ho.
Qed.

Lemma inv_wait_for_messages s r cursor f s' :
  inv s → wait_for_messages s r cursor = Some (f, s') → inv s'.
Proof.
  intros [Hp Hd Ho] E.
  destruct (wait_for_messages_obs s r cursor) as (s'' & E' & _ & _ & Hw & Hf).
  rewrite E in E'. injection E' as -> <-.
  assert (Hfresh : ∀ r', length (futures s) ∉ waiters_of s r').
  { intros r' Hin. apply Hp in Hin. apply lookup_lt_Some in Hin. lia. }
  assert (Hsub : ∀ r' g, g ∈ waiters_of s' r' →
            g ∈ waiters_of s r' ∨
            (g = length (futures s) ∧ r' = r ∧ new_count_of cursor (cache_of s r) = 0)).
  { intros r' g. rewrite Hw.
    destruct (decide (r' = r ∧ _)) as [[-> ?]|]; [|by left].
    rewrite elem_of_union, elem_of_singleton.
    intros [->|?]; [by right|by left]. }
  split.
  - intros r' g Hg. rewrite Hf. apply Hsub in Hg as [Hg|(-> & -> & ->)].
    + apply lookup_app_l_Some. by eapply Hp.
    + by apply list_lookup_middle.
  - intros r1 r2 g H1 H2.
    apply Hsub in H1 as [H1|(-> & -> & _)]; apply Hsub in H2 as [H2|(E2 & -> & _)].
    + by eapply Hd.
    + subst. by apply Hfresh in H1.
    + by apply Hfresh in H2.
    + done.
  - intros g F. rewrite Hf. intros [HF|[_ HF]]%lookup_app_Some; [by eapply Ho|].
    destruct (g - length (futures s)); simpl in HF; [|by rewrite lookup_nil in HF].
    injection HF as <-. destruct (new_count_of _ _); simpl; lia.
Qed.

Lemma inv_cancel_wait s r f s' : inv s → cancel_wait s r f = Some s' → inv s'.
Proof.
  intros [Hp Hd Ho] E.
  assert (Hin : f ∈ waiters_of s r) by (by eapply cancel_wait_Some).
  destruct (cancel_wait_obs s r f Hin) as (s'' & E' & _ & _ & Hw & Hf).
  rewrite E in E'. injection E' as <-.
  assert (Hsub : ∀ r' g, g ∈ waiters_of s' r' → g ∈ waiters_of s r' ∧ g ≠ f).
  { intros r' g. rewrite Hw. case_decide; [set_solver|].
    intros Hg. split; [done|]. intros ->. by rewrite (Hd _ _ _ Hg Hin) in *. }
  split.
  - intros r' g [Hg Hne]%Hsub. rewrite Hf, list_lookup_alter_ne by done. by eapply Hp.
  - intros r1 r2 g [H1 _]%Hsub [H2 _]%Hsub. by eapply Hd.
  - intros g F. rewrite Hf, list_lookup_alter. case_decide; [subst|by apply Ho].
    rewrite (Hp _ _ Hin). simpl. by intros [= <-].
Qed.

Lemma inv_new_messages s r messages s' :
  inv s → new_messages s r messages = Some s' → inv s'.
Proof.
  intros [Hp Hd Ho] E.
  destruct (new_messages_obs s r messages) as (s'' & E' & _ & _ & Hw & Hf).
  rewrite E in E'. injection E' as <-.
  assert (Hsub : ∀ r' g, g ∈ waiters_of s' r' → g ∈ waiters_of s r' ∧ g ∉ waiters_of s r).
  { intros r' g. rewrite Hw. case_decide; [set_solver|].
    intros Hg. split; [done|]. intros Hg'. by rewrite (Hd _ _ _ Hg Hg') in *. }
  split.
  - intros r' g [Hg Hn]%Hsub. rewrite Hf, resolve_all_notin.
    + by eapply Hp.
    + by rewrite elem_of_elements.
  - intros r1 r2 g [H1 _]%Hsub [H2 _]%Hsub. by eapply Hd.
  - intros g F. rewrite Hf. destruct (decide (g ∈ waiters_of s r)) as [Hg|Hg].
    + rewrite resolve_all_in by (by rewrite ?elem_of_elements; try apply NoDup_elements).
      rewrite (Hp _ _ Hg). simpl. by intros [= <-].
    + rewrite resolve_all_notin by (by rewrite elem_of_elements). apply Ho.
Qed.

Lemma inv_step s c : inv s → inv (step s c).
Proof.
  intros H. destruct c as [r|r cursor|r f|r messages]; simpl.
  - by apply inv_create_new_room.
  - destruct (wait_for_messages s r cursor) as [[f s']|] eqn:E; simpl; [|done].
    by eapply inv_wait_for_messages.
  - destruct (cancel_wait s r f) as [s'|] eqn:E; simpl; [|done].
    by eapply inv_cancel_wait.
  - destruct (new_messages s r messages) as [s'|] eqn:E; simpl; [|done].
    by eapply inv_new_messages.
Qed.

Lemma inv_run s calls : inv s → inv (run s calls).
Proof.
  revert s. induction calls as [|c calls IH]; intros s H; simpl; [done|].
  apply IH. by apply inv_step.
Qed.

Lemma run_app s calls1 calls2 : run s (calls1 ++ calls2) = run (run s calls1) calls2.
Proof. apply foldl_app. Qed.

Lemma step_cache_size s c : cache_size (step s c) = cache_size s.
Proof.
  destruct c as [r|r cursor|r f|r messages]; simpl.
  - apply create_new_room_cache_size.
  - by destruct (wait_for_messages_obs s r cursor) as (s' & -> & ? & _).
  - destruct (cancel_wait s r f) as [s'|] eqn:E; simpl; [|done].
    assert (Hin : f ∈ waiters_of s r) by (by eapply cancel_wait_Some).
    destruct (cancel_wait_obs s r f Hin) as (s'' & E' & ? & _). congruence.
  - by destruct (new_messages_obs s r messages) as (s' & -> & ? & _).
Qed.

Lemma run_cache_size s calls : cache_size (run s calls) = cache_size s.
Proof.
  revert s. induction calls as [|c calls IH]; intros s; simpl; [done|].
  by rewrite IH, step_cache_size.
Qed.

(** ** The bound on the cache *)

Lemma length_last_n {A} n (l : list A) : length (last_n n l) ≤ n.
Proof. unfold last_n. rewrite length_drop. lia. Qed.

Lemma last_n_app {A} n (a b : list A) : last_n n (last_n n a ++ b) = last_n n (a ++ b).
Proof.
  unfold last_n.
  rewrite <- (drop_app_le a b (length a - n)) by lia.
  rewrite drop_drop. f_equal.
  rewrite length_drop, !length_app. lia.
Qed.

Lemma trimmed_last_n n c : 0 < n → trimmed n c = last_n n c.
Proof.
  intros Hn. unfold trimmed, last_n, slice_last. case_decide as Hlt.
  - by destruct n; [lia|].
  - by replace (length c - n) with 0 by lia.
Qed.

Lemma step_cache_of s c r :
  cache_of (step s c) r =
  match c with
  | NewMessages r' messages =>
      if decide (r = r') then trimmed (cache_size s) (cache_of s r ++ messages)
      else cache_of s r
  | _ => cache_of s r
  end.
Proof.
  destruct c as [r'|r' cursor|r' f|r' messages]; simpl.
  - apply create_new_room_cache_of.
  - by destruct (wait_for_messages_obs s r' cursor) as (s' & -> & _ & -> & _).
  - destruct (cancel_wait s r' f) as [s'|] eqn:E; simpl; [|done].
    assert (Hin : f ∈ waiters_of s r') by (by eapply cancel_wait_Some).
    destruct (cancel_wait_obs s r' f Hin) as (s'' & E' & _ & Hc & _).
    rewrite E in E'. injection E' as <-. apply Hc.
  - destruct (new_messages_obs s r' messages) as (s' & -> & _ & Hc & _). simpl.
    rewrite Hc. by case_decide; subst.
Qed.

Lemma run_cache_of s calls r :
  0 < cache_size s → length (cache_of s r) ≤ cache_size s →
  cache_of (run s calls) r = last_n (cache_size s) (cache_of s r ++ published r calls).
Proof.
  intros Hn. revert s Hn. induction calls as [|c calls IH]; intros s Hn Hlen.
  - simpl. rewrite app_nil_r. unfold last_n.
    by replace (_ - _) with 0 by lia.
  - change (run s (c :: calls)) with (run (step s c) calls).
    assert (Hstep : cache_of (step s c) r ++ published r calls
                    = cache_of s r ++ published r (c :: calls)
                    ∨ ∃ messages, c = NewMessages r messages
                        ∧ cache_of (step s c) r
                          = last_n (cache_size s) (cache_of s r ++ messages)).
    { rewrite step_cache_of.
      destruct c as [r'|r' cursor|r' f|r' messages]; simpl; try by left.
      destruct (decide (r = r')) as [->|Hne].
      - right. exists messages. by rewrite trimmed_last_n.
      - left. by rewrite decide_False. }
    rewrite IH, step_cache_size; rewrite ?step_cache_size; [|done|].
    + destruct Hstep as [->|(messages & -> & ->)]; [done|].
      simpl. rewrite decide_True by done. by rewrite last_n_app, app_assoc.
    + destruct Hstep as [E|(messages & -> & ->)]; [|apply length_last_n].
      rewrite step_cache_of.
      destruct c as [r'|r' cursor|r' f|r' messages]; try done.
      case_decide; [|done]. rewrite trimmed_last_n by done. apply length_last_n.
Qed.

(** C1. After any sequence of calls on a new buffer (publications to
    any rooms, mixed with the other methods), the cache of every room
    holds at most [cache_size] = 200 messages, and it is exactly the
    last 200 (or all, when there are fewer) of the messages published to
    that room, in the order of their arrival: the oldest are dropped
    first. *)
Theorem cache_bound (calls : list call) (r : string) :
  length (cache_of (run init calls) r) ≤ 200
  ∧ cache_of (run init calls) r = last_n 200 (published r calls).
Proof.
  assert (E : cache_of (run init calls) r = last_n 200 (published r calls)).
  { rewrite run_cache_of.
    - unfold cache_of. simpl. by rewrite lookup_empty.
    - simpl. lia.
    - unfold cache_of. simpl. rewrite lookup_empty. simpl. lia. }
  split; [|done]. rewrite E. apply length_last_n.
Qed.

(** The scenario of the specification: 205 messages published one by
    one to a new room leave the messages 6 to 205. *)

Example cache_bound_205 :
  cache_of (run init (map (λ i, NewMessages "lobby" [numbered i]) (seq 1 205))) "lobby"
  = map numbered (seq 6 200).
Proof. vm_compute. reflexivity. Qed.

(** ** Publication and the waiters *)

Lemma results_pending s r f : inv s → f ∈ waiters_of s r → results s f = [].
Proof. intros H Hf. unfold results. by rewrite (inv_pending s H r f Hf). Qed.

(** C2. On a buffer reached by any sequence of calls, [new_messages]
    returns normally, resolves every future that waits in the room with
    exactly the batch published (one and the same list for all of them,
    not the cache), leaves every other future as it was, and leaves the
    room without waiters. *)
Theorem new_messages_resolves_waiters (calls : list call) (r : string)
    (messages : list Message) :
  let s := run init calls in
  ∃ s', new_messages s r messages = Some s'
    ∧ waiters_of s' r = ∅
    ∧ (∀ f, f ∈ waiters_of s r → results s' f = [messages])
    ∧ (∀ f, f ∉ waiters_of s r → results s' f = results s f).
Proof.
  intros s. assert (Hinv : inv s) by apply inv_run, inv_init.
  destruct (new_messages_obs s r messages) as (s' & E & _ & _ & Hw & Hf).
  exists s'. split; [done|]. split; [|split].
  - rewrite Hw. by rewrite decide_True.
  - intros f Hin. unfold results. rewrite Hf, resolve_all_in.
    + by rewrite (inv_pending s Hinv r f Hin).
    + apply NoDup_elements.
    + by rewrite elem_of_elements.
  - intros f Hin. unfold results. rewrite Hf, resolve_all_notin; [done|].
    by rewrite elem_of_elements.
Qed.

(** The first scenario of the specification: a client waits in the
    empty room "lobby", then "m1" is published there. *)
Example publish_to_waiter :
  let s := run init [WaitForMessages "lobby" None; NewMessages "lobby" [msg "m1"]] in
  results s 0 = [[msg "m1"]] ∧ waiters_of s "lobby" = ∅ ∧ cache_of s "lobby" = [msg "m1"].
Proof. vm_compute. done. Qed.

(** ** Cancellation *)

(** C4, as the code has it. On a buffer reached by any sequence of
    calls, [cancel_wait] returns normally exactly when the future waits
    in the room: it then takes the future out of the waiters of the
    room, resolves it with the empty list, and leaves the caches and the
    waiters of the other rooms alone. For a future that does not wait in
    the room (never added, or taken out already by a publication or an
    earlier cancellation) or for a room that does not exist, it raises
    [KeyError]. *)
Theorem cancel_wait_waiting (calls : list call) (r : string) (f : nat) :
  let s := run init calls in
  (f ∈ waiters_of s r →
     ∃ s', cancel_wait s r f = Some s'
       ∧ waiters_of s' r = waiters_of s r ∖ {[f]}
       ∧ results s' f = [[]]
       ∧ (∀ r', cache_of s' r' = cache_of s r')
       ∧ (∀ r', r' ≠ r → waiters_of s' r' = waiters_of s r'))
  ∧ (f ∉ waiters_of s r → cancel_wait s r f = None).
Proof.
  intros s. assert (Hinv : inv s) by apply inv_run, inv_init.
  split; [|by intros ?%cancel_wait_None].
  intros Hin.
  destruct (cancel_wait_obs s r f Hin) as (s' & E & _ & Hc & Hw & Hf).
  exists s'. split; [done|]. split; [|split; [|split; [done|]]].
  - rewrite Hw. by rewrite decide_True.
  - unfold results. rewrite Hf, list_lookup_alter_eq.
    by rewrite (inv_pending s Hinv r f Hin).
  - intros r' Hne. rewrite Hw. by rewrite decide_False.
Qed.

Lemma cancel_wait_waiting_witness :
  let s := run init [WaitForMessages "lobby" None] in
  0 ∈ waiters_of s "lobby"
  ∧ ∃ s', cancel_wait s "lobby" 0 = Some s'
      ∧ waiters_of s' "lobby" = waiters_of s "lobby" ∖ {[0]}
      ∧ results s' 0 = [[]].
Proof.
  assert (H : 0 ∈ waiters_of (run init [WaitForMessages "lobby" None]) "lobby")
    by (vm_compute; reflexivity).
  split; [exact H|].
  destruct (proj1 (cancel_wait_waiting [WaitForMessages "lobby" None] "lobby" 0) H)
    as (s' & E & Hw & Hr & _).
  exists s'. auto.
Defined.

(** The claim as stated fails: after a publication has resolved the
    waiter, a cancellation of the same future is not a silent no-op; it
    raises, and so it does on a room that was never created. *)
Lemma cancel_wait_after_publish_raises :
  let s := run init [WaitForMessages "lobby" None; NewMessages "lobby" [msg "m1"]] in
  results s 0 = [[msg "m1"]]
  ∧ cancel_wait s "lobby" 0 = None
  ∧ cancel_wait init "lobby" 0 = None.
Proof. vm_compute. done. Qed.

(** ** Creation of rooms *)

(** C8. [create_new_room] is total and returns [True]. Afterwards the
    room exists: it is the room that was there, with its cache and its
    waiters, or a room with an empty cache and no waiters when there was
    none. Nothing else changes, a buffer that has the room is left as it
    is, and a second call changes nothing. *)
Theorem create_new_room_idempotent (s : MessageBuffer) (r : string) :
  let s' := (create_new_room s r).2 in
  (create_new_room s r).1 = true
  ∧ room s' !! r = Some (default empty_room (room s !! r))
  ∧ (∀ r', r' ≠ r → room s' !! r' = room s !! r')
  ∧ futures s' = futures s
  ∧ cache_size s' = cache_size s
  ∧ (is_Some (room s !! r) → s' = s)
  ∧ create_new_room s' r = (true, s').
Proof.
  intros s'. subst s'. split; [|split; [|split; [|split; [|split; [|split]]]]].
  - unfold create_new_room. by destruct (room s !! r).
  - apply create_new_room_lookup.
  - intros r' Hne. rewrite create_new_room_room. by rewrite lookup_insert_ne.
  - apply create_new_room_futures.
  - apply create_new_room_cache_size.
  - intros [R HR]. unfold create_new_room. by rewrite HR.
  - unfold create_new_room at 1. by rewrite create_new_room_lookup.
Qed.

Example create_new_room_keeps_room :
  let s := run init [WaitForMessages "lobby" None; NewMessages "hall" [msg "m1"];
                     WaitForMessages "hall" None] in
  (create_new_room s "hall").2 = s
  ∧ cache_of (create_new_room s "attic").2 "attic" = []
  ∧ waiters_of (create_new_room s "attic").2 "attic" = ∅.
Proof. vm_compute. done. Qed.

(** ** Waiting with a cursor *)

Lemma count_new_skip c p rest :
  Forall (λ m, msg_id m ≠ c) p →
  count_new c (p ++ rest) = length p + count_new c rest.
Proof.
  induction 1 as [|m p Hm _ IH]; simpl; [done|].
  rewrite decide_False by done. by rewrite IH.
Qed.

Lemma count_new_found c l1 m l2 :
  msg_id m = c → Forall (λ m', msg_id m' ≠ c) l2 →
  count_new c (rev (l1 ++ m :: l2)) = length l2.
Proof.
  intros Hm Hl2. rewrite rev_app_distr. simpl. rewrite <- app_assoc.
  rewrite count_new_skip by (by apply Forall_rev).
  simpl. rewrite decide_True by done. rewrite length_rev. lia.
Qed.

Lemma count_new_missing c l :
  Forall (λ m, msg_id m ≠ c) l → count_new c (rev l) = length l.
Proof.
  intros Hl. rewrite <- (app_nil_r (rev l)).
  rewrite count_new_skip by (by apply Forall_rev).
  simpl. rewrite length_rev. lia.
Qed.

(** The state left by a replay: the rooms as they were, and one more
    future, already resolved. *)
Lemma wait_for_messages_replay s r c :
  c ≠ "" → cache_of s r ≠ [] → count_new c (rev (cache_of s r)) ≠ 0 →
  wait_for_messages s r (Some c) =
  Some (length (futures s),
        {| room := room s; cache_size := cache_size s;
           futures := futures s ++
             [[slice_last (count_new c (rev (cache_of s r))) (cache_of s r)]] |}).
Proof.
  intros Hc Hne Hn. rewrite wait_for_messages_eq.
  rewrite cache_default. fold (cache_of s r).
  unfold new_count_of. rewrite decide_False by done.
  destruct (count_new c (rev (cache_of s r))) as [|k] eqn:E; [done|].
  do 3 f_equal. unfold cache_of in Hne.
  destruct (room s !! r) as [R|] eqn:HR; [|done]. simpl. by apply insert_id.
Qed.

Lemma not_in_ids c (l : list Message) :
  c ∉ map msg_id l → Forall (λ m, msg_id m ≠ c) l.
Proof.
  induction l as [|m l IH]; simpl; [constructor|].
  intros [Hm Hl]%not_elem_of_cons. constructor; [done|by apply IH].
Qed.

Lemma results_new_future s s' v :
  futures s' = futures s ++ [v] → results s' (length (futures s)) = v.
Proof. intros E. unfold results. by rewrite E, list_lookup_middle. Qed.

(** A replay from the last position that holds the cursor. *)
Lemma wait_for_messages_replay_after s r c k m :
  c ≠ "" →
  cache_of s r !! k = Some m →
  msg_id m = c →
  c ∉ map msg_id (drop (S k) (cache_of s r)) →
  S k < length (cache_of s r) →
  wait_for_messages s r (Some c) =
  Some (length (futures s),
        {| room := room s; cache_size := cache_size s;
           futures := futures s ++ [[drop (S k) (cache_of s r)]] |}).
Proof.
  intros Hc Hk Hm Hlast Hnew.
  assert (Hcount : count_new c (rev (cache_of s r)) = length (cache_of s r) - S k).
  { rewrite <- (take_drop_middle _ _ _ Hk) at 1.
    rewrite count_new_found by (by try apply not_in_ids). apply length_drop. }
  rewrite wait_for_messages_replay; [|done| |lia].
  - rewrite Hcount. unfold slice_last.
    destruct (length (cache_of s r) - S k) as [|n] eqn:E; [lia|].
    by replace (length (cache_of s r) - S n) with (S k) by lia.
  - intros E. by rewrite E in Hk.
Qed.

(** C3, as the code has it. The scan goes from the newest message
    back to the first one whose id is the cursor, and it is made only
    for a cursor that is not the empty string. If the cursor [c] is not
    empty, the cache of the room has a message with id [c] at position
    [k], no message after position [k] has that id, and some message
    stands after position [k], then [wait_for_messages] with cursor [c]
    returns a future that is resolved already, with exactly the
    messages after position [k] in their order; no room changes,
    neither its cache nor its waiters, and no other future is touched. *)
Theorem wait_for_messages_replays_after_cursor
    (s : MessageBuffer) (r c : string) (k : nat) (m : Message) :
  c ≠ "" →
  cache_of s r !! k = Some m →
  msg_id m = c →
  c ∉ map msg_id (drop (S k) (cache_of s r)) →
  S k < length (cache_of s r) →
  ∃ s', wait_for_messages s r (Some c) = Some (length (futures s), s')
    ∧ results s' (length (futures s)) = [drop (S k) (cache_of s r)]
    ∧ room s' = room s
    ∧ (∀ f, f < length (futures s) → futures s' !! f = futures s !! f).
Proof.
  intros Hc Hk Hm Hlast Hnew.
  eexists. split; [by eapply wait_for_messages_replay_after|].
  split; [|split; [done|]].
  - by erewrite results_new_future by reflexivity.
  - intros f Hf. simpl. by rewrite lookup_app_l.
Qed.

(** The third scenario of the specification: the cache is m1, m2, m3
    and the cursor is m1. *)
Lemma wait_for_messages_replays_after_cursor_witness :
  let s := run init [NewMessages "lobby" [msg "m1"; msg "m2"; msg "m3"]] in
  ∃ s', wait_for_messages s "lobby" (Some "m1") = Some (0, s')
    ∧ results s' 0 = [[msg "m2"; msg "m3"]]
    ∧ room s' = room s.
Proof.
  destruct (wait_for_messages_replays_after_cursor
              (run init [NewMessages "lobby" [msg "m1"; msg "m2"; msg "m3"]])
              "lobby" "m1" 0 (msg "m1")) as (s' & E & Hr & Hroom & _).
  - discriminate.
  - vm_compute. reflexivity.
  - reflexivity.
  - apply (bool_decide_unpack _). vm_compute. exact I.
  - vm_compute. lia.
  - exists s'. split; [exact E|]. split; [exact Hr|exact Hroom].
Defined.

(** The claim as stated fails in two ways. When the id of the cursor
    stands at two positions, the messages returned are those after the
    later one: with the cache a, b, a, c and the cursor a, which is at
    position 0, the future is resolved with c alone and not with
    b, a, c. And when the cursor is the empty string, the id of the
    message at position 0 of the cache "", m2, the scan is not made:
    the future is added to the waiters and stays pending. *)
Lemma wait_for_messages_repeated_or_empty_id :
  let s := run init [NewMessages "lobby" [msg "a"; msg "b"; msg "a"; msg "c"]] in
  let t := run init [NewMessages "lobby" [msg ""; msg "m2"]] in
  (cache_of s "lobby" !! 0 = Some (msg "a")
   ∧ drop 1 (cache_of s "lobby") = [msg "b"; msg "a"; msg "c"]
   ∧ ∃ s', wait_for_messages s "lobby" (Some "a") = Some (0, s')
       ∧ results s' 0 = [[msg "c"]])
  ∧ (cache_of t "lobby" !! 0 = Some (msg "")
     ∧ drop 1 (cache_of t "lobby") = [msg "m2"]
     ∧ ∃ t', wait_for_messages t "lobby" (Some "") = Some (0, t')
         ∧ results t' 0 = []
         ∧ waiters_of t' "lobby" = {[0]}).
Proof.
  split.
  - split; [by vm_compute|]. split; [by vm_compute|].
    eexists. split; [vm_compute; reflexivity|]. by vm_compute.
  - split; [by vm_compute|]. split; [by vm_compute|].
    eexists. split; [vm_compute; reflexivity|]. split; [by vm_compute|].
    apply set_eq. intros x. vm_compute. done.
Qed.

(** C5, as the code has it. If the cache of the room is not empty and
    the cursor is a non-empty string that is the id of none of its
    messages, [wait_for_messages] returns a future that is resolved
    already, with the whole cache; no room changes and no future is
    added to the waiters. *)
Theorem wait_for_messages_unknown_cursor (s : MessageBuffer) (r c : string) :
  c ≠ "" →
  cache_of s r ≠ [] →
  c ∉ map msg_id (cache_of s r) →
  ∃ s', wait_for_messages s r (Some c) = Some (length (futures s), s')
    ∧ results s' (length (futures s)) = [cache_of s r]
    ∧ room s' = room s
    ∧ (∀ f, f < length (futures s) → futures s' !! f = futures s !! f).
Proof.
  intros Hc Hne Hmiss.
  assert (Hcount : count_new c (rev (cache_of s r)) = length (cache_of s r)).
  { apply count_new_missing. by apply not_in_ids. }
  assert (Hpos : length (cache_of s r) ≠ 0) by (by destruct (cache_of s r)).
  eexists. split; [|split; [|split]].
  - apply wait_for_messages_replay; [done|done|lia].
  - erewrite results_new_future by reflexivity. rewrite Hcount.
    unfold slice_last. destruct (length (cache_of s r)) as [|n] eqn:E; [done|].
    by rewrite Nat.sub_diag.
  - done.
  - intros f Hf. simpl. by rewrite lookup_app_l.
Qed.

Lemma wait_for_messages_unknown_cursor_witness :
  let s := run init [NewMessages "lobby" [msg "m1"; msg "m2"; msg "m3"]] in
  ∃ s', wait_for_messages s "lobby" (Some "m0") = Some (0, s')
    ∧ results s' 0 = [[msg "m1"; msg "m2"; msg "m3"]]
    ∧ room s' = room s.
Proof.
  destruct (wait_for_messages_unknown_cursor
              (run init [NewMessages "lobby" [msg "m1"; msg "m2"; msg "m3"]])
              "lobby" "m0") as (s' & E & Hr & Hroom & _).
  - discriminate.
  - vm_compute. discriminate.
  - apply (bool_decide_unpack _). vm_compute. exact I.
  - exists s'. split; [exact E|]. split; [exact Hr|exact Hroom].
Defined.

(** The claim as stated fails for the empty string, which is a cursor
    that a client can send and the id of no message: the cache is not
    empty, yet the future is added to the waiters and stays pending. *)
Lemma wait_for_messages_empty_cursor_waits :
  let s := run init [NewMessages "lobby" [msg "m1"]] in
  cache_of s "lobby" = [msg "m1"]
  ∧ ("" ∉ map msg_id (cache_of s "lobby"))
  ∧ ∃ s', wait_for_messages s "lobby" (Some "") = Some (0, s')
      ∧ results s' 0 = []
      ∧ waiters_of s' "lobby" = {[0]}.
Proof.
  split; [by vm_compute|]. split.
  - apply (bool_decide_unpack _). vm_compute. exact I.
  - eexists. split; [vm_compute; reflexivity|]. split; [by vm_compute|].
    apply set_eq. intros x. vm_compute. done.
Qed.

(** C10. The empty string is a cursor that [if cursor:] does not take:
    [wait_for_messages] then does what it does without a cursor. It does
    not look at the cache, whatever it holds; it adds the new future to
    the waiters of the room and leaves it pending. *)
Theorem wait_for_messages_empty_cursor (s : MessageBuffer) (r : string) :
  wait_for_messages s r (Some "") = wait_for_messages s r None
  ∧ ∃ s', wait_for_messages s r (Some "") = Some (length (futures s), s')
      ∧ waiters_of s' r = {[length (futures s)]} ∪ waiters_of s r
      ∧ results s' (length (futures s)) = []
      ∧ (∀ r', cache_of s' r' = cache_of s r').
Proof.
  split; [reflexivity|].
  destruct (wait_for_messages_obs s r (Some "")) as (s' & E & _ & Hc & Hw & Hf).
  simpl in Hw, Hf. exists s'. split; [done|]. split; [|split; [|done]].
  - rewrite Hw. by rewrite decide_True.
  - by apply results_new_future.
Qed.

Example empty_cursor_on_full_room :
  let s := run init [NewMessages "lobby" [msg "m1"; msg "m2"]] in
  ∃ s', wait_for_messages s "lobby" (Some "") = Some (0, s')
      ∧ results s' 0 = [] ∧ cache_of s' "lobby" = [msg "m1"; msg "m2"].
Proof. eexists. split; [vm_compute; reflexivity|]. by vm_compute. Qed.

(** ** Futures that a call does not touch *)

Lemma step_untouched s c f :
  f < length (futures s) → ¬ touches s c f →
  futures (step s c) !! f = futures s !! f
  ∧ ∀ r, f ∈ waiters_of (step s c) r ↔ f ∈ waiters_of s r.
Proof.
  intros Hlt Hno. destruct c as [r'|r' cursor|r' g|r' messages]; simpl in *.
  - rewrite create_new_room_futures. split; [done|].
    intros r. by rewrite create_new_room_waiters_of.
  - destruct (wait_for_messages_obs s r' cursor) as (s' & -> & _ & _ & Hw & Hf).
    simpl. rewrite Hf. split; [by rewrite lookup_app_l|].
    intros r. rewrite Hw.
    destruct (decide (r = r' ∧ _)) as [[-> _]|]; [|done].
    rewrite elem_of_union, elem_of_singleton. split; [|by right].
    intros [->|?]; [lia|done].
  - destruct (decide (g ∈ waiters_of s r')) as [Hin|Hout].
    + destruct (cancel_wait_obs s r' g Hin) as (s' & -> & _ & _ & Hw & Hf).
      simpl. assert (g ≠ f) by (intros ->; by apply Hno).
      rewrite Hf. split; [by rewrite list_lookup_alter_ne|].
      intros r. rewrite Hw. destruct (decide (r = r')) as [->|]; [|done].
      rewrite elem_of_difference, elem_of_singleton.
      split; [by intros [? _]|]. intros Hf'. split; [done|congruence].
    + apply cancel_wait_None in Hout. by rewrite Hout.
  - destruct (new_messages_obs s r' messages) as (s' & -> & _ & _ & Hw & Hf).
    simpl. rewrite Hf. split.
    + apply resolve_all_notin. by rewrite elem_of_elements.
    + intros r. rewrite Hw. case_decide; [subst|done].
      split; [by intros ?%not_elem_of_empty|done].
Qed.

(** A future that has been resolved is touched by no call. *)
Lemma resolved_not_touched s c f : inv s → results s f ≠ [] → ¬ touches s c f.
Proof.
  intros Hinv Hres Ht. apply Hres.
  destruct c as [r'|r' cursor|r' g|r' messages]; simpl in Ht; try done.
  - destruct Ht as [_ Ht]. by eapply results_pending.
  - by eapply results_pending.
Qed.

Lemma results_allocated s f : results s f ≠ [] → f < length (futures s).
Proof.
  unfold results. intros H. destruct (futures s !! f) eqn:E; [|done].
  by eapply lookup_lt_Some.
Qed.

Lemma run_resolved s more f :
  inv s → results s f ≠ [] → results (run s more) f = results s f.
Proof.
  revert s. induction more as [|c more IH]; intros s Hinv Hres; [done|].
  change (run s (c :: more)) with (run (step s c) more).
  assert (E : results (step s c) f = results s f).
  { unfold results. f_equal. apply step_untouched.
    - by apply results_allocated.
    - by apply resolved_not_touched. }
  rewrite IH; [done|by apply inv_step|by rewrite E].
Qed.

(** ** Resolution happens once *)


(** The last scenario of the specification, with a second client that
    does wait: the publication resolves the second future only. *)
Example cancel_then_publish :
  let s := run init [WaitForMessages "lobby" None; CancelWait "lobby" 0;
                     WaitForMessages "lobby" None; NewMessages "lobby" [msg "m1"]] in
  results s 0 = [[]] ∧ results s 1 = [[msg "m1"]] ∧ waiters_of s "lobby" = ∅.
Proof. vm_compute. done. Qed.

(** ** Waiting without a replay *)

Lemma not_targets_not_touches s c r f :
  inv s → f ∈ waiters_of s r → targets r f c = false → ¬ touches s c f.
Proof.
  intros Hinv Hin Ht Htouch.
  destruct c as [r'|r' cursor|r' g|r' messages]; simpl in *; try done.
  - destruct Htouch as [-> Hin'].
    apply bool_decide_eq_false in Ht. apply Ht. split; [|done].
    by eapply inv_disjoint.
  - apply bool_decide_eq_false in Ht. apply Ht. by eapply inv_disjoint.
Qed.

Lemma run_waiting s more r f :
  inv s → f ∈ waiters_of s r → Forall (λ c, targets r f c = false) more →
  f ∈ waiters_of (run s more) r ∧ results (run s more) f = [].
Proof.
  revert s. induction more as [|c more IH]; intros s Hinv Hin Hmore.
  - split; [done|by eapply results_pending].
  - apply Forall_cons in Hmore as [Hc Hmore].
    change (run s (c :: more)) with (run (step s c) more).
    apply IH; [by apply inv_step| |done].
    apply step_untouched.
    + apply (inv_pending s Hinv) in Hin. by eapply lookup_lt_Some.
    + by eapply not_targets_not_touches.
    + done.
Qed.

Lemma new_count_of_newest c m :
  last c = Some m → new_count_of (Some (msg_id m)) c = 0.
Proof.
  intros [c' ->]%last_Some. unfold new_count_of. case_decide; [done|].
  rewrite rev_app_distr. simpl. by rewrite decide_True.
Qed.

(** C7. On a buffer reached by any sequence of calls,
    [wait_for_messages] without a cursor, or with the id of the newest
    message of the room as the cursor, returns a new future that it has
    added to the waiters of the room and that is pending; the future
    stays pending, and in the waiters, through every later sequence of
    calls that holds neither a publication to the room nor the
    cancellation of this future in the room. *)
Theorem wait_for_messages_registers (calls : list call) (r : string)
    (cursor : option string) :
  let s := run init calls in
  let f := length (futures s) in
  cursor = None ∨ (∃ m, last (cache_of s r) = Some m ∧ cursor = Some (msg_id m)) →
  ∃ s', wait_for_messages s r cursor = Some (f, s')
    ∧ (f ∉ waiters_of s r)
    ∧ waiters_of s' r = {[f]} ∪ waiters_of s r
    ∧ results s' f = []
    ∧ ∀ more, Forall (λ c, targets r f c = false) more →
        f ∈ waiters_of (run s' more) r ∧ results (run s' more) f = [].
Proof.
  intros s f Hcursor. assert (Hinv : inv s) by apply inv_run, inv_init.
  destruct (wait_for_messages_obs s r cursor) as (s' & E & _ & _ & Hw & Hf).
  fold f in E, Hw, Hf.
  assert (Hn : new_count_of cursor (cache_of s r) = 0).
  { destruct Hcursor as [->|(m & Hm & ->)]; [done|by apply new_count_of_newest]. }
  rewrite Hn in Hw, Hf.
  assert (Hw' : waiters_of s' r = {[f]} ∪ waiters_of s r).
  { rewrite Hw. by rewrite decide_True. }
  exists s'. split; [done|]. split; [|split; [done|split]].
  - intros Hin. apply (inv_pending s Hinv) in Hin. apply lookup_lt_Some in Hin.
    unfold f in Hin. lia.
  - by apply results_new_future.
  - intros more Hmore. apply run_waiting; [by eapply inv_wait_for_messages| |done].
    rewrite Hw'. apply elem_of_union_l. by apply elem_of_singleton.
Qed.

Lemma wait_for_messages_registers_witness :
  let s := run init [NewMessages "lobby" [msg "m1"; msg "m2"]] in
  ∃ s', wait_for_messages s "lobby" (Some "m2") = Some (0, s')
    ∧ waiters_of s' "lobby" = {[0]} ∪ waiters_of s "lobby"
    ∧ results s' 0 = [].
Proof.
  destruct (wait_for_messages_registers
              [NewMessages "lobby" [msg "m1"; msg "m2"]] "lobby" (Some "m2"))
    as (s' & E & _ & Hw & Hr & _).
  - right. exists (msg "m2"). split; [vm_compute; reflexivity|reflexivity].
  - exists s'. split; [exact E|]. split; [exact Hw|exact Hr].
Defined.

(** A client that waits in "lobby" is not resolved by what happens in
    "hall", nor by a cancellation of its future in the wrong room. *)
Example waiting_through_other_calls :
  let s := run init [WaitForMessages "lobby" None; NewMessages "hall" [msg "m1"];
                     CancelWait "hall" 0; WaitForMessages "lobby" (Some "m9")] in
  results s 0 = [] ∧ results s 1 = [] ∧ waiters_of s "hall" = ∅.
Proof. vm_compute. done. Qed.

(** ** The order of the steps of a publication *)

(** The state after the first [n] statements of [new_messages]. *)
Lemma exec_new_messages_prefix s r messages n :
  let R := default empty_room (room s !! r) in
  let resolved := resolve_all messages (elements (waiters R)) (futures s) in
  let mk c w F := {| room := <[r := {| cache := c; waiters := w |}]> (room s);
                     cache_size := cache_size s; futures := F |} in
  exec (take n (new_messages_body r messages)) s =
  Some match n with
       | 0 => s
       | 1 => (create_new_room s r).2
       | 2 => mk (cache R) (waiters R) resolved
       | 3 => mk (cache R) ∅ resolved
       | 4 => mk (cache R ++ messages) ∅ resolved
       | _ => mk (trimmed (cache_size s) (cache R ++ messages)) ∅ resolved
       end.
Proof.
  intros R resolved mk.
  assert (E2 : exec (take 2 (new_messages_body r messages)) s
               = Some (mk (cache R) (waiters R) resolved)).
  { unfold exec. simpl. unfold resolve_waiters.
    rewrite create_new_room_lookup. simpl.
    rewrite foldl_set_result, create_new_room_futures, create_new_room_cache_size,
      create_new_room_room. fold R resolved. unfold mk. by destruct R. }
  assert (E3 : exec (take 3 (new_messages_body r messages)) s
               = Some (mk (cache R) ∅ resolved)).
  { change (take 3 (new_messages_body r messages))
      with (take 2 (new_messages_body r messages) ++ [clear_waiters r]).
    unfold exec in *. rewrite foldl_app, E2. simpl.
    unfold clear_waiters, mk, set_room. simpl. rewrite lookup_insert_eq. simpl.
    by rewrite insert_insert_eq. }
  assert (E4 : exec (take 4 (new_messages_body r messages)) s
               = Some (mk (cache R ++ messages) ∅ resolved)).
  { change (take 4 (new_messages_body r messages))
      with (take 3 (new_messages_body r messages) ++ [extend_cache r messages]).
    unfold exec in *. rewrite foldl_app, E3. simpl.
    unfold extend_cache, mk, set_room. simpl. rewrite lookup_insert_eq. simpl.
    by rewrite insert_insert_eq. }
  destruct n as [|[|[|[|[|n]]]]]; try done.
  rewrite take_ge by (simpl; lia). apply new_messages_eq.
Qed.

(** C9, as the code has it. Within one call of [new_messages] the
    waiters are resolved first and the cache is extended afterwards: at
    every point of the call where the cache of the room is no longer
    what it was on entry, every future that waited in the room on entry
    has been resolved with the batch and the room has no waiters. *)
Theorem new_messages_resolves_then_extends
    (s : MessageBuffer) (r : string) (messages : list Message) (n : nat)
    (s' : MessageBuffer) :
  exec (take n (new_messages_body r messages)) s = Some s' →
  cache_of s' r ≠ cache_of s r →
  waiters_of s' r = ∅
  ∧ futures s' = resolve_all messages (elements (waiters_of s r)) (futures s).
Proof.
  rewrite exec_new_messages_prefix. intros [= <-] Hcache.
  rewrite waiters_default. fold (waiters_of s r).
  destruct n as [|[|[|[|[|n]]]]].
  - done.
  - by rewrite create_new_room_cache_of in Hcache.
  - exfalso. apply Hcache. erewrite cache_of_insert by reflexivity.
    rewrite decide_True by done. simpl. apply cache_default.
  - exfalso. apply Hcache. erewrite cache_of_insert by reflexivity.
    rewrite decide_True by done. simpl. apply cache_default.
  - split; [|done]. erewrite waiters_of_insert by reflexivity.
    by rewrite decide_True.
  - split; [|done]. erewrite waiters_of_insert by reflexivity.
    by rewrite decide_True.
Qed.

Lemma new_messages_resolves_then_extends_witness :
  let s := run init [WaitForMessages "lobby" None] in
  let s' := default s (exec (take 4 (new_messages_body "lobby" [msg "m1"])) s) in
  cache_of s "lobby" = [] ∧ cache_of s' "lobby" = [msg "m1"]
  ∧ waiters_of s' "lobby" = ∅
  ∧ futures s' = resolve_all [msg "m1"] (elements (waiters_of s "lobby")) (futures s).
Proof.
  split; [vm_compute; reflexivity|]. split; [vm_compute; reflexivity|].
  apply (new_messages_resolves_then_extends
           (run init [WaitForMessages "lobby" None]) "lobby" [msg "m1"] 4).
  - vm_compute. reflexivity.
  - vm_compute. discriminate.
Defined.

(** The claim as stated fails: when the loop over the waiters is done,
    and still when the set of waiters has been replaced, the future of
    the waiting client is resolved with the batch while the cache of
    the room does not hold the batch yet. *)
Lemma new_messages_resolves_before_extending :
  let s := run init [WaitForMessages "lobby" None] in
  ∃ s2 s3,
    exec (take 2 (new_messages_body "lobby" [msg "m1"])) s = Some s2
    ∧ results s2 0 = [[msg "m1"]] ∧ cache_of s2 "lobby" = []
    ∧ exec (take 3 (new_messages_body "lobby" [msg "m1"])) s = Some s3
    ∧ results s3 0 = [[msg "m1"]] ∧ cache_of s3 "lobby" = [].
Proof.
  do 2 eexists.
  split; [vm_compute; reflexivity|]. split; [vm_compute; reflexivity|].
  split; [vm_compute; reflexivity|]. split; [vm_compute; reflexivity|].
  split; vm_compute; reflexivity.
Qed.

(** * Further properties of the buffer *)

(** ** The registry of rooms *)

Lemma step_room s c :
  ∃ R, room (step s c) = match c with
                         | CancelWait r f =>
                             if decide (f ∈ waiters_of s r) then <[r := R]> (room s)
                             else room s
                         | _ => <[call_room c := R]> (room s)
                         end.
Proof.
  destruct c as [r|r cursor|r f|r messages]; simpl.
  - eexists. apply create_new_room_room.
  - rewrite wait_for_messages_eq. simpl.
    destruct (new_count_of _ _); by eexists.
  - destruct (decide (f ∈ waiters_of s r)) as [Hin|Hout].
    + unfold waiters_of in Hin.
      destruct (room s !! r) as [R|] eqn:HR; [|by apply not_elem_of_empty in Hin].
      rewrite (cancel_wait_eq s r f R) by done. by eexists.
    + apply cancel_wait_None in Hout. rewrite Hout. by exists empty_room.
  - rewrite new_messages_eq. by eexists.
Qed.

Lemma step_dom s c : dom (room (step s c)) = dom (room s) ∪ creates c.
Proof.
  destruct (step_room s c) as [R E]. rewrite E.
  destruct c as [r|r cursor|r f|r messages]; simpl;
    try (rewrite dom_insert_L; apply (comm_L (∪))).
  rewrite (right_id_L ∅ (∪)).
  destruct (decide (f ∈ waiters_of s r)) as [Hin|]; [|done].
  rewrite dom_insert_L. apply subseteq_union_1_L, singleton_subseteq_l.
  apply elem_of_dom. unfold waiters_of in Hin.
  destruct (room s !! r); [done|by apply not_elem_of_empty in Hin].
Qed.

(** X1. Rooms are created and never removed: after any sequence of
    calls the rooms of the buffer are the rooms it had, and the rooms
    named by the calls of [create_new_room], [wait_for_messages] and
    [new_messages]; [cancel_wait] creates no room. *)
Theorem rooms_never_removed (s : MessageBuffer) (calls : list call) :
  dom (room (run s calls)) = dom (room s) ∪ rooms_named calls.
Proof.
  revert s. induction calls as [|c calls IH]; intros s.
  - unfold rooms_named. simpl. by rewrite (right_id_L ∅ (∪)).
  - change (run s (c :: calls)) with (run (step s c) calls).
    rewrite IH, step_dom. unfold rooms_named. simpl. by rewrite (assoc_L (∪)).
Qed.

Lemma step_room_other s c r' :
  call_room c ≠ r' → room (step s c) !! r' = room s !! r'.
Proof.
  intros Hne. destruct (step_room s c) as [R E]. rewrite E.
  destruct c as [r|r cursor|r f|r messages]; simpl in *;
    try (by rewrite lookup_insert_ne).
  case_decide; [by rewrite lookup_insert_ne|done].
Qed.

(** X2. A call leaves every room but the one it names as it is: the
    cache and the waiters are the same, and on a buffer reached from
    [__init__] the futures that wait there stay pending. *)
Theorem other_rooms_untouched (calls : list call) (c : call) (r' : string) :
  let s := run init calls in
  call_room c ≠ r' →
  room (step s c) !! r' = room s !! r'
  ∧ ∀ f, f ∈ waiters_of s r' → results (step s c) f = [].
Proof.
  intros s Hne. assert (Hinv : inv s) by apply inv_run, inv_init.
  pose proof (step_room_other s c r' Hne) as E.
  split; [done|]. intros f Hf.
  apply (results_pending (step s c) r'); [by apply inv_step|].
  unfold waiters_of in *. by rewrite E.
Qed.

Lemma other_rooms_untouched_witness :
  let s := run init [NewMessages "hall" [msg "m1"]; WaitForMessages "hall" None] in
  "lobby" ≠ "hall"
  ∧ room (step s (NewMessages "lobby" [msg "m2"])) !! "hall" = room s !! "hall"
  ∧ results (step s (NewMessages "lobby" [msg "m2"])) 0 = [].
Proof.
  split; [discriminate|].
  destruct (other_rooms_untouched
              [NewMessages "hall" [msg "m1"]; WaitForMessages "hall" None]
              (NewMessages "lobby" [msg "m2"]) "hall") as [E Hf].
  - simpl. discriminate.
  - split; [exact E|]. apply Hf. vm_compute. reflexivity.
Defined.

(** ** The futures handed out *)

Lemma step_futures_length s c :
  length (futures (step s c)) =
  length (futures s) + match c with WaitForMessages _ _ => 1 | _ => 0 end.
Proof.
  destruct c as [r|r cursor|r f|r messages]; simpl.
  - rewrite create_new_room_futures. lia.
  - destruct (wait_for_messages_obs s r cursor) as (s' & -> & _ & _ & _ & Hf).
    simpl. rewrite Hf, length_app. simpl. lia.
  - destruct (cancel_wait s r f) as [s'|] eqn:E; simpl; [|lia].
    assert (Hin : f ∈ waiters_of s r) by (by eapply cancel_wait_Some).
    destruct (cancel_wait_obs s r f Hin) as (s'' & E' & _ & _ & _ & Hf).
    rewrite E in E'. injection E' as <-. rewrite Hf, length_alter. lia.
  - destruct (new_messages_obs s r messages) as (s' & -> & _ & _ & _ & Hf).
    simpl. rewrite Hf, resolve_all_length. lia.
Qed.

Lemma run_futures_length s calls :
  length (futures (run s calls)) = length (futures s) + waits calls.
Proof.
  revert s. induction calls as [|c calls IH]; intros s; simpl; [lia|].
  fold (run (step s c) calls). rewrite IH, step_futures_length.
  destruct c; simpl; lia.
Qed.

(** X3. Futures are handed out in sequence and never again: on a new
    buffer the call of [wait_for_messages] that follows [n] earlier ones
    returns the future [n], whatever the other calls in between; so two
    calls never return the same future. *)
Theorem futures_never_reused (calls more : list call) (r r2 : string)
    (cursor cursor2 : option string) :
  let s := run init calls in
  ∃ s1 s2,
    wait_for_messages s r cursor = Some (waits calls, s1)
    ∧ wait_for_messages (run s1 more) r2 cursor2 = Some (waits calls + 1 + waits more, s2).
Proof.
  intros s.
  destruct (wait_for_messages_obs s r cursor) as (s1 & E1 & _ & _ & _ & Hf1).
  destruct (wait_for_messages_obs (run s1 more) r2 cursor2) as (s2 & E2 & _).
  exists s1, s2. split.
  - rewrite E1. unfold s. by rewrite run_futures_length.
  - rewrite E2, run_futures_length, Hf1, length_app. unfold s.
    rewrite run_futures_length. done.
Qed.

(** X4. A future that has been resolved, by a replay, a publication or
    a cancellation, cannot be cancelled: on a buffer reached from
    [__init__], [cancel_wait] raises [KeyError] for it in every room, so
    it never resolves a future a second time. *)
Theorem cancel_wait_resolved_raises (calls : list call) (r : string) (f : nat) :
  let s := run init calls in
  results s f ≠ [] → cancel_wait s r f = None.
Proof.
  intros s Hres. assert (Hinv : inv s) by apply inv_run, inv_init.
  apply cancel_wait_None. intros Hin. apply Hres. by eapply results_pending.
Qed.

Lemma cancel_wait_resolved_raises_witness :
  let s := run init [NewMessages "lobby" [msg "m1"; msg "m2"];
                     WaitForMessages "lobby" (Some "m1")] in
  results s 0 = [[msg "m2"]] ∧ cancel_wait s "lobby" 0 = None.
Proof.
  split; [vm_compute; reflexivity|].
  apply (cancel_wait_resolved_raises
           [NewMessages "lobby" [msg "m1"; msg "m2"];
            WaitForMessages "lobby" (Some "m1")] "lobby" 0).
  vm_compute. discriminate.
Defined.

(** ** What a call of [wait_for_messages] answers *)

Lemma count_new_split c (l : list Message) :
  ∃ pre ms, l = pre ++ ms
    ∧ count_new c (rev l) = length ms
    ∧ Forall (λ m, msg_id m ≠ c) ms
    ∧ (∀ m, last pre = Some m → msg_id m = c).
Proof.
  induction l as [|x l IH] using rev_ind.
  - exists [], []. by repeat split.
  - rewrite rev_app_distr. simpl. destruct (decide (msg_id x = c)) as [Hx|Hx].
    + exists (l ++ [x]), []. rewrite app_nil_r. repeat split; [constructor|].
      intros m. rewrite last_snoc. by intros [= <-].
    + destruct IH as (pre & ms & -> & Hn & Hms & Hpre).
      exists pre, (ms ++ [x]). rewrite app_assoc, Hn, length_app. simpl.
      repeat split; [lia| |done].
      apply Forall_app. split; [done|]. by constructor.
Qed.

Lemma slice_last_app {A} (pre ms : list A) :
  ms ≠ [] → slice_last (length ms) (pre ++ ms) = ms.
Proof.
  intros Hms. unfold slice_last. destruct (length ms) as [|n] eqn:E.
  - by destruct ms.
  - rewrite <- E, length_app.
    replace (length pre + length ms - length ms) with (length pre) by lia.
    apply drop_app_length.
Qed.

(** X5. [wait_for_messages] returns normally on every buffer and
    changes no cache. Either it leaves the new future pending, in the
    waiters of the room; or the cursor is a non-empty string and the
    future is resolved at once, not added to the waiters, with a part
    of the cache that is never empty: the longest end of the cache in
    which no message has the cursor as its id (the whole cache when no
    message has it, the messages after the last one that has it
    otherwise). *)
Theorem wait_for_messages_answer (s : MessageBuffer) (r : string)
    (cursor : option string) :
  let f := length (futures s) in
  ∃ s', wait_for_messages s r cursor = Some (f, s')
    ∧ (∀ r', cache_of s' r' = cache_of s r')
    ∧ ((results s' f = [] ∧ waiters_of s' r = {[f]} ∪ waiters_of s r)
       ∨ (∃ c pre ms,
            cursor = Some c ∧ c ≠ ""
            ∧ cache_of s r = pre ++ ms ∧ ms ≠ []
            ∧ Forall (λ m, msg_id m ≠ c) ms
            ∧ (∀ m, last pre = Some m → msg_id m = c)
            ∧ results s' f = [ms]
            ∧ waiters_of s' r = waiters_of s r)).
Proof.
  intros f. subst f.
  destruct (wait_for_messages_obs s r cursor) as (s' & E & _ & Hc & Hw & Hf).
  exists s'. split; [done|]. split; [done|].
  destruct (new_count_of cursor (cache_of s r)) as [|k] eqn:En.
  - left. split; [by apply results_new_future|].
    rewrite Hw. by rewrite decide_True.
  - right. unfold new_count_of in En. destruct cursor as [c|]; [|done].
    destruct (decide (c = "")) as [|Hne]; [done|].
    destruct (count_new_split c (cache_of s r)) as (pre & ms & Hl & Hn & Hms & Hpre).
    assert (Hms' : ms ≠ []).
    { intros ->. simpl in Hn. congruence. }
    exists c, pre, ms. repeat (split; [done|]). split.
    + erewrite results_new_future by exact Hf.
      rewrite <- En, Hn, Hl. by rewrite slice_last_app.
    + rewrite Hw. rewrite decide_False; [done|]. by intros [_ ?].
Qed.

Example answer_with_repeated_id :
  let s := run init [NewMessages "lobby" [msg "a"; msg "b"; msg "a"; msg "c"; msg "d"]] in
  ∃ s', wait_for_messages s "lobby" (Some "a") = Some (0, s')
    ∧ results s' 0 = [[msg "c"; msg "d"]].
Proof. eexists. split; [vm_compute; reflexivity|]. by vm_compute. Qed.

(** X6. In a room whose cache is empty, and so in a room that did not
    exist, [wait_for_messages] waits whatever the cursor is: the new
    future is pending and in the waiters of the room. *)
Theorem wait_for_messages_empty_room (s : MessageBuffer) (r : string)
    (cursor : option string) :
  cache_of s r = [] →
  ∃ s', wait_for_messages s r cursor = Some (length (futures s), s')
    ∧ results s' (length (futures s)) = []
    ∧ waiters_of s' r = {[length (futures s)]} ∪ waiters_of s r.
Proof.
  intros Hc.
  destruct (wait_for_messages_obs s r cursor) as (s' & E & _ & _ & Hw & Hf).
  assert (Hn : new_count_of cursor (cache_of s r) = 0).
  { rewrite Hc. destruct cursor as [c|]; [|done]. simpl.
    by destruct (decide (c = "")). }
  rewrite Hn in Hw, Hf. exists s'. split; [done|].
  split; [by apply results_new_future|].
  rewrite Hw. by rewrite decide_True.
Qed.

Lemma wait_for_messages_empty_room_witness :
  cache_of init "lobby" = []
  ∧ ∃ s', wait_for_messages init "lobby" (Some "m9") = Some (0, s')
      ∧ results s' 0 = []
      ∧ waiters_of s' "lobby" = {[0]} ∪ waiters_of init "lobby".
Proof.
  split; [reflexivity|].
  apply (wait_for_messages_empty_room init "lobby" (Some "m9")). reflexivity.
Defined.

(** ** The order of the loop over the waiters *)

Lemma alter_swap {A} (g : A → A) i j (l : list A) :
  alter g i (alter g j l) = alter g j (alter g i l).
Proof.
  destruct (decide (i = j)) as [->|Hij]; [done|].
  apply list_eq. intros k.
  destruct (decide (i = k)) as [->|Hik].
  - by rewrite list_lookup_alter_eq, !list_lookup_alter_ne, list_lookup_alter_eq by done.
  - rewrite (list_lookup_alter_ne g (alter g j l)) by done.
    destruct (decide (j = k)) as [->|Hjk].
    + by rewrite !list_lookup_alter_eq, list_lookup_alter_ne by done.
    + by rewrite !list_lookup_alter_ne by done.
Qed.

Lemma resolve_all_Permutation v fs fs' F :
  fs ≡ₚ fs' → resolve_all v fs F = resolve_all v fs' F.
Proof.
  intros Hp. revert F. unfold resolve_all.
  induction Hp as [|x l l' _ IH|x y l|l l' l'' _ IH1 _ IH2]; intros F; simpl.
  - done.
  - apply IH.
  - by rewrite alter_swap.
  - by rewrite IH1, IH2.
Qed.

(** X7. The loop of [new_messages] goes over a set, whose order Python
    does not fix: in whatever order the waiters of the room are taken,
    the calls of [set_result] leave the same buffer. *)
Theorem resolve_waiters_any_order (s : MessageBuffer) (r : string) (R : Room)
    (messages : list Message) (order : list nat) :
  room s !! r = Some R →
  order ≡ₚ elements (waiters R) →
  resolve_waiters r messages s
  = Some (foldl (λ s' f, set_result f messages s') s order).
Proof.
  intros HR Hp. unfold resolve_waiters. rewrite HR. simpl.
  rewrite !foldl_set_result. by rewrite (resolve_all_Permutation _ _ _ _ Hp).
Qed.

Lemma resolve_waiters_any_order_witness :
  let s := run init [WaitForMessages "lobby" None; WaitForMessages "lobby" None] in
  resolve_waiters "lobby" [msg "m1"] s
  = Some (set_result 0 [msg "m1"] (set_result 1 [msg "m1"] s))
  ∧ resolve_waiters "lobby" [msg "m1"] s
    = Some (set_result 1 [msg "m1"] (set_result 0 [msg "m1"] s)).
Proof.
  split.
  - apply (resolve_waiters_any_order
             (run init [WaitForMessages "lobby" None; WaitForMessages "lobby" None])
             "lobby" {| cache := []; waiters := {[0; 1]} |} [msg "m1"] [1; 0]).
    + vm_compute. reflexivity.
    + apply (bool_decide_unpack _). vm_compute. exact I.
  - apply (resolve_waiters_any_order
             (run init [WaitForMessages "lobby" None; WaitForMessages "lobby" None])
             "lobby" {| cache := []; waiters := {[0; 1]} |} [msg "m1"] [0; 1]).
    + vm_compute. reflexivity.
    + apply (bool_decide_unpack _). vm_compute. exact I.
Defined.

(** ** A publication and the poll that follows *)

Lemma count_new_end c pre ms :
  Forall (λ m, msg_id m ≠ c) ms →
  pre = [] ∨ (∃ pre' m, pre = pre' ++ [m] ∧ msg_id m = c) →
  count_new c (rev (pre ++ ms)) = length ms.
Proof.
  intros Hms [->|(pre' & m & -> & Hm)].
  - by apply count_new_missing.
  - rewrite <- app_assoc. by apply count_new_found.
Qed.

Lemma drop_snoc_cases {A} j (l : list A) x :
  drop j (l ++ [x]) = [] ∨ ∃ p, drop j (l ++ [x]) = p ++ [x].
Proof.
  destruct (decide (j ≤ length l)) as [Hj|Hj].
  - right. exists (drop j l). by rewrite drop_app_le.
  - left. apply drop_ge. rewrite length_app. simpl. lia.
Qed.

(** The cache after a publication of at most [cache_size] messages
    ends with the batch, and what stands before the batch is nothing
    or ends with the message that was the newest. *)
Lemma trimmed_keeps_batch n old m (ms : list Message) :
  length ms ≤ n →
  ∃ pre, trimmed n ((old ++ [m]) ++ ms) = pre ++ ms
    ∧ (pre = [] ∨ ∃ pre', pre = pre' ++ [m]).
Proof.
  intros Hn. unfold trimmed. case_decide as Hlt.
  - unfold slice_last. destruct n as [|n'].
    { exists (old ++ [m]). split; [done|]. right. by eexists. }
    rewrite !length_app in *. simpl in *.
    rewrite drop_app_le by (rewrite length_app; simpl; lia).
    eexists. split; [reflexivity|]. apply drop_snoc_cases.
  - exists (old ++ [m]). split; [done|]. right. by eexists.
Qed.

(** X8. A client that has seen everything up to the newest message [m]
    of a room and polls again after a publication gets the batch
    published, all of it and nothing else, and at once: this holds
    when the batch is not empty, has at most [cache_size] messages,
    and the ids are those of the data model. *)
Theorem publish_then_poll (s : MessageBuffer) (r : string) (m : Message)
    (messages : list Message) :
  last (cache_of s r) = Some m →
  unique_ids (cache_of s r ++ messages) →
  messages ≠ [] →
  length messages ≤ cache_size s →
  ∃ s1 s2,
    new_messages s r messages = Some s1
    ∧ wait_for_messages s1 r (Some (msg_id m)) = Some (length (futures s1), s2)
    ∧ results s2 (length (futures s1)) = [messages]
    ∧ room s2 = room s1.
Proof.
  intros [old Hold]%last_Some [Hnd Hne] Hms Hlen.
  destruct (new_messages_obs s r messages) as (s1 & E1 & _ & Hc1 & _).
  specialize (Hc1 r). rewrite decide_True in Hc1 by done.
  destruct (trimmed_keeps_batch (cache_size s) old m messages Hlen)
    as (pre & Hpre & Hend).
  rewrite Hold in Hc1, Hnd, Hne. rewrite Hpre in Hc1.
  rewrite !map_app in Hnd, Hne. simpl in Hnd, Hne.
  assert (Hc : msg_id m ≠ "").
  { intros E. apply Hne. rewrite E, !elem_of_app, list_elem_of_singleton. auto. }
  assert (Hfresh : Forall (λ m', msg_id m' ≠ msg_id m) messages).
  { apply not_in_ids. intros Hin. apply NoDup_app in Hnd as (_ & Hnd & _).
    apply (Hnd (msg_id m)); [|done].
    rewrite elem_of_app, list_elem_of_singleton. auto. }
  assert (Hcount : count_new (msg_id m) (rev (cache_of s1 r)) = length messages).
  { rewrite Hc1. apply count_new_end; [done|].
    destruct Hend as [->|[pre' ->]]; [by left|right; by eexists _, _]. }
  assert (Hpos : length messages ≠ 0) by (by destruct messages).
  exists s1. eexists. split; [done|].
  split; [apply wait_for_messages_replay; [done| |lia]|].
  - rewrite Hc1. by destruct pre, messages.
  - split; [|done]. erewrite results_new_future by reflexivity.
    rewrite Hcount, Hc1. by rewrite slice_last_app.
Qed.

Lemma publish_then_poll_witness :
  let s := run init [NewMessages "lobby" [msg "m1"]] in
  ∃ s1 s2,
    new_messages s "lobby" [msg "m2"; msg "m3"] = Some s1
    ∧ wait_for_messages s1 "lobby" (Some "m1") = Some (length (futures s1), s2)
    ∧ results s2 (length (futures s1)) = [[msg "m2"; msg "m3"]].
Proof.
  destruct (publish_then_poll (run init [NewMessages "lobby" [msg "m1"]])
              "lobby" (msg "m1") [msg "m2"; msg "m3"])
    as (s1 & s2 & E1 & E2 & Hr & _).
  - vm_compute. reflexivity.
  - split; apply (bool_decide_unpack _); vm_compute; exact I.
  - discriminate.
  - vm_compute. lia.
  - exists s1, s2. split; [exact E1|]. split; [exact E2|exact Hr].
Defined.

(** With more than [cache_size] messages in the batch the same client
    misses the oldest of them. *)
Example poll_after_large_batch :
  let s := {| room := ∅; cache_size := 2; futures := [] |} in
  let s1 := run s [NewMessages "lobby" [msg "m1"];
                   NewMessages "lobby" [msg "m2"; msg "m3"; msg "m4"];
                   WaitForMessages "lobby" (Some "m1")] in
  results s1 0 = [[msg "m3"; msg "m4"]].
Proof. vm_compute. reflexivity. Qed.

(** X9. A future that waits is resolved by the next publication to
    its room, with the batch of that publication, whatever is called
    in between on other rooms or for other futures; and nothing that
    follows resolves it again. *)
Theorem waiter_gets_next_publication (calls more later : list call) (r : string)
    (messages : list Message) :
  let s := run init calls in
  let f := length (futures s) in
  Forall (λ c, targets r f c = false) more →
  ∃ s1 s2,
    wait_for_messages s r None = Some (f, s1)
    ∧ results (run s1 more) f = []
    ∧ new_messages (run s1 more) r messages = Some s2
    ∧ results s2 f = [messages]
    ∧ results (run s2 later) f = [messages].
Proof.
  intros s f Hmore. assert (Hinv : inv s) by apply inv_run, inv_init.
  destruct (wait_for_messages_obs s r None) as (s1 & E1 & _ & _ & Hw1 & _).
  fold f in E1, Hw1. simpl in Hw1.
  assert (Hinv1 : inv s1) by (by eapply inv_wait_for_messages).
  assert (Hin1 : f ∈ waiters_of s1 r).
  { rewrite Hw1, decide_True by done. apply elem_of_union_l. by apply elem_of_singleton. }
  destruct (run_waiting s1 more r f Hinv1 Hin1 Hmore) as [Hin Hres].
  assert (Hinv' : inv (run s1 more)) by (by apply inv_run).
  destruct (new_messages_obs (run s1 more) r messages) as (s2 & E2 & _ & _ & _ & Hf2).
  assert (Hres2 : results s2 f = [messages]).
  { unfold results. rewrite Hf2, resolve_all_in.
    - by rewrite (inv_pending _ Hinv' r f Hin).
    - apply NoDup_elements.
    - by rewrite elem_of_elements. }
  exists s1, s2. repeat (split; [done|]).
  rewrite run_resolved; [done|by eapply inv_new_messages|by rewrite Hres2].
Qed.

Lemma waiter_gets_next_publication_witness :
  let s := run init [NewMessages "lobby" [msg "m1"]] in
  let more := [NewMessages "hall" [msg "m2"]; WaitForMessages "lobby" None;
               CancelWait "lobby" 1; CancelWait "hall" 0] in
  ∃ s1 s2,
    wait_for_messages s "lobby" None = Some (0, s1)
    ∧ results (run s1 more) 0 = []
    ∧ new_messages (run s1 more) "lobby" [msg "m3"] = Some s2
    ∧ results s2 0 = [[msg "m3"]].
Proof.
  destruct (waiter_gets_next_publication
              [NewMessages "lobby" [msg "m1"]]
              [NewMessages "hall" [msg "m2"]; WaitForMessages "lobby" None;
               CancelWait "lobby" 1; CancelWait "hall" 0]
              [] "lobby" [msg "m3"]) as (s1 & s2 & E1 & H1 & E2 & H2 & _).
  - repeat constructor.
  - exists s1, s2. split; [exact E1|]. split; [exact H1|]. split; [exact E2|exact H2].
Defined.

(** ** Edges of a publication *)

Lemma run_cache_length (calls : list call) (r : string) :
  length (cache_of (run init calls) r) ≤ cache_size (run init calls).
Proof.
  rewrite run_cache_size, run_cache_of.
  - apply length_last_n.
  - simpl. lia.
  - unfold cache_of. simpl. rewrite lookup_empty. simpl. lia.
Qed.

(** X10. The publication of an empty batch changes no cache, yet it
    wakes every client that waits in the room: their futures are
    resolved with the empty list, as a cancellation would, and the room
    is left without waiters. *)
Theorem new_messages_empty_batch (calls : list call) (r : string) :
  let s := run init calls in
  ∃ s', new_messages s r [] = Some s'
    ∧ (∀ r', cache_of s' r' = cache_of s r')
    ∧ waiters_of s' r = ∅
    ∧ (∀ f, f ∈ waiters_of s r → results s' f = [[]]).
Proof.
  intros s. assert (Hinv : inv s) by apply inv_run, inv_init.
  destruct (new_messages_obs s r []) as (s' & E & _ & Hc & Hw & Hf).
  exists s'. split; [done|]. split; [|split].
  - intros r'. rewrite Hc. case_decide as Hr; [subst r'|done].
    rewrite app_nil_r. unfold trimmed. rewrite decide_False; [done|].
    pose proof (run_cache_length calls r). fold s in H. lia.
  - rewrite Hw. by rewrite decide_True.
  - intros f Hin. unfold results. rewrite Hf, resolve_all_in.
    + by rewrite (inv_pending s Hinv r f Hin).
    + apply NoDup_elements.
    + by rewrite elem_of_elements.
Qed.

(** X11. One publication is enough to bring a cache within the bound,
    for every positive [cache_size] and whatever the cache held before:
    it leaves the last [cache_size] messages of the old cache followed
    by the batch. With a [cache_size] of 0 nothing is ever dropped,
    since the slice [cache[-0:]] is the whole list. *)
Theorem new_messages_bound (s : MessageBuffer) (r : string) (messages : list Message) :
  ∃ s', new_messages s r messages = Some s'
    ∧ (0 < cache_size s →
         cache_of s' r = last_n (cache_size s) (cache_of s r ++ messages)
         ∧ length (cache_of s' r) ≤ cache_size s)
    ∧ (cache_size s = 0 → cache_of s' r = cache_of s r ++ messages).
Proof.
  destruct (new_messages_obs s r messages) as (s' & E & _ & Hc & _).
  specialize (Hc r). rewrite decide_True in Hc by done.
  exists s'. split; [done|]. split.
  - intros Hn. rewrite Hc, trimmed_last_n by done.
    split; [done|apply length_last_n].
  - intros Hn. rewrite Hc, Hn. unfold trimmed. by case_decide.
Qed.

Lemma new_messages_bound_witness :
  let over := {| room := {["lobby" := {| cache := [msg "m1"; msg "m2"; msg "m3"];
                                         waiters := ∅ |}]};
                 cache_size := 2; futures := [] |} in
  let none := {| room := ∅; cache_size := 0; futures := [] |} in
  (∃ s', new_messages over "lobby" [msg "m4"] = Some s'
     ∧ cache_of s' "lobby" = [msg "m3"; msg "m4"])
  ∧ (∃ s', new_messages none "lobby" [msg "m1"; msg "m2"] = Some s'
       ∧ cache_of s' "lobby" = [msg "m1"; msg "m2"]).
Proof.
  split.
  - destruct (new_messages_bound
                {| room := {["lobby" := {| cache := [msg "m1"; msg "m2"; msg "m3"];
                                           waiters := ∅ |}]};
                   cache_size := 2; futures := [] |} "lobby" [msg "m4"])
      as (s' & E & H & _).
    exists s'. split; [exact E|]. destruct H as [H _]; [simpl; lia|].
    rewrite H. vm_compute. reflexivity.
  - destruct (new_messages_bound {| room := ∅; cache_size := 0; futures := [] |}
                "lobby" [msg "m1"; msg "m2"]) as (s' & E & _ & H).
    exists s'. split; [exact E|]. rewrite H by reflexivity. vm_compute. reflexivity.
Defined.

(** X12. A batch of [cache_size] messages or more drives everything
    older out of the cache: what is left is the end of the batch. *)
Theorem new_messages_large_batch (s : MessageBuffer) (r : string)
    (messages : list Message) :
  0 < cache_size s →
  cache_size s ≤ length messages →
  ∃ s', new_messages s r messages = Some s'
    ∧ cache_of s' r = last_n (cache_size s) messages.
Proof.
  intros Hn Hlen.
  destruct (new_messages_obs s r messages) as (s' & E & _ & Hc & _).
  specialize (Hc r). rewrite decide_True in Hc by done.
  exists s'. split; [done|]. rewrite Hc, trimmed_last_n by done.
  unfold last_n. rewrite length_app, drop_app_ge by lia. f_equal. lia.
Qed.

Lemma new_messages_large_batch_witness :
  let s := {| room := {["lobby" := {| cache := [msg "m1"]; waiters := ∅ |}]};
              cache_size := 2; futures := [] |} in
  ∃ s', new_messages s "lobby" [msg "m2"; msg "m3"; msg "m4"] = Some s'
    ∧ cache_of s' "lobby" = last_n 2 [msg "m2"; msg "m3"; msg "m4"].
Proof.
  apply (new_messages_large_batch
           {| room := {["lobby" := {| cache := [msg "m1"]; waiters := ∅ |}]};
              cache_size := 2; futures := [] |} "lobby" [msg "m2"; msg "m3"; msg "m4"]).
  - simpl. lia.
  - simpl. lia.
Defined.

(** ** The waiters *)

(** X13. On a buffer reached from [__init__] the waiters of a room are
    futures that [wait_for_messages] has handed out, none of them
    resolved, and no future waits in two rooms. *)
Theorem waiter_in_one_room (calls : list call) (r1 r2 : string) (f : nat) :
  let s := run init calls in
  f ∈ waiters_of s r1 →
  f < waits calls
  ∧ results s f = []
  ∧ (f ∈ waiters_of s r2 → r1 = r2).
Proof.
  intros s Hin. assert (Hinv : inv s) by apply inv_run, inv_init.
  split; [|split].
  - apply (inv_pending s Hinv) in Hin. apply lookup_lt_Some in Hin.
    unfold s in Hin. by rewrite run_futures_length in Hin.
  - by eapply results_pending.
  - intros Hin2. by eapply inv_disjoint.
Qed.

Lemma waiter_in_one_room_witness :
  let s := run init [WaitForMessages "lobby" None; WaitForMessages "hall" None] in
  1 ∈ waiters_of s "hall" ∧ 1 < 2 ∧ results s 1 = [].
Proof.
  assert (H : 1 ∈ waiters_of
                (run init [WaitForMessages "lobby" None; WaitForMessages "hall" None])
                "hall") by (vm_compute; reflexivity).
  split; [exact H|].
  destruct (waiter_in_one_room
              [WaitForMessages "lobby" None; WaitForMessages "hall" None]
              "hall" "lobby" 1 H) as (Hlt & Hres & _).
  split; [exact Hlt|exact Hres].
Defined.

(** ** The request handlers *)

(** X14. [MainHandler.get] renders nothing and changes nothing when
    the request names no room or the empty one. Otherwise it renders,
    on a buffer reached from [__init__], the last 200 messages
    published to the room in the order of their arrival, and its only
    effect is that the room exists afterwards: no cache, no waiter and
    no future changes. *)
Theorem MainHandler_get_renders (calls : list call) (room_arg : option string) :
  let s := run init calls in
  ∃ out s', MainHandler_get s room_arg = Some (out, s')
    ∧ match room_arg with
      | None => out = None ∧ s' = s
      | Some r =>
          if decide (r = "") then out = None ∧ s' = s
          else out = Some (last_n 200 (published r calls), r)
               ∧ dom (room s') = dom (room s) ∪ {[r]}
      end
    ∧ (∀ r', cache_of s' r' = cache_of s r')
    ∧ (∀ r', waiters_of s' r' = waiters_of s r')
    ∧ futures s' = futures s.
Proof.
  intros s. unfold MainHandler_get.
  destruct room_arg as [r|]; [|by eexists _, _].
  destruct (decide (r = "")) as [|Hr]; [by eexists _, _|].
  rewrite create_new_room_lookup. simpl. eexists _, _. split; [done|].
  split; [|split; [|split]].
  - split.
    + rewrite cache_default. fold (cache_of s r). unfold s.
      rewrite run_cache_of.
      * unfold cache_of at 1. simpl. by rewrite lookup_empty.
      * simpl. lia.
      * unfold cache_of. simpl. rewrite lookup_empty. simpl. lia.
    + rewrite create_new_room_room, dom_insert_L. apply (comm_L (∪)).
  - intros r'. apply create_new_room_cache_of.
  - intros r'. apply create_new_room_waiters_of.
  - apply create_new_room_futures.
Qed.

Example page_of_empty_room_name :
  let s := run init [NewMessages "" [msg "m1"]] in
  MainHandler_get s (Some "") = Some (None, s) ∧ cache_of s "" = [msg "m1"].
Proof. vm_compute. done. Qed.

(** X15. [MessageNewHandler.post] raises, and publishes nothing, when
    the request has no body, and when it names a non-empty [next] for
    which [self.redirect] raises. Otherwise, on a buffer reached from
    [__init__], the message it builds becomes the newest of the room,
    behind the last 199 messages the room had; every client that waits
    in the room gets a list with this message alone, and the room is
    left without waiters. The answer is the message, or a redirection
    when the request names a non-empty [next]. *)
Theorem MessageNewHandler_post_publishes (redirect : string → bool)
    (calls : list call) (uuid clock b : string) (next_arg : option string)
    (r : string) :
  let s := run init calls in
  let message := {| msg_id := uuid; timestamp := before_dot clock; body := b |} in
  let refused :=
    match next_arg with
    | None => false
    | Some url => if decide (url = "") then false else negb (redirect url)
    end in
  MessageNewHandler_post redirect s uuid clock None next_arg r = None
  ∧ (refused = true →
       MessageNewHandler_post redirect s uuid clock (Some b) next_arg r = None)
  ∧ (refused = false →
       ∃ answer s',
         MessageNewHandler_post redirect s uuid clock (Some b) next_arg r
         = Some (answer, s')
         ∧ answer = match next_arg with
                    | None => Written message
                    | Some url =>
                        if decide (url = "") then Written message else Redirect url
                    end
         ∧ cache_of s' r = last_n 199 (cache_of s r) ++ [message]
         ∧ last (cache_of s' r) = Some message
         ∧ (∀ f, f ∈ waiters_of s r → results s' f = [[message]])
         ∧ waiters_of s' r = ∅).
Proof.
  intros s message refused. split; [done|].
  assert (Hinv : inv s) by apply inv_run, inv_init.
  unfold MessageNewHandler_post. simpl. fold message.
  split.
  - subst refused. destruct next_arg as [url|]; [|done].
    destruct (decide (url = "")); [done|].
    by destruct (redirect url).
  - intros Hok.
    assert (Hanswer :
      match next_arg with
      | None => Some (Written message)
      | Some url =>
          if decide (url = "") then Some (Written message)
          else if redirect url then Some (Redirect url) else None
      end
      = Some match next_arg with
             | None => Written message
             | Some url => if decide (url = "") then Written message else Redirect url
             end).
    { subst refused. destruct next_arg as [url|]; [|done].
      destruct (decide (url = "")); [done|].
      by destruct (redirect url). }
    rewrite Hanswer. simpl.
    destruct (new_messages_obs s r [message]) as (s' & E & _ & Hc & Hw & Hf).
    rewrite E. simpl. eexists _, s'. split; [done|]. split; [done|].
    specialize (Hc r). rewrite decide_True in Hc by done.
    assert (Hsize : cache_size s = 200) by (unfold s; by rewrite run_cache_size).
    rewrite Hsize, trimmed_last_n in Hc by lia.
    assert (Hcache : cache_of s' r = last_n 199 (cache_of s r) ++ [message]).
    { rewrite Hc. unfold last_n. rewrite length_app. simpl.
      rewrite drop_app_le by lia. do 2 f_equal. lia. }
    split; [done|]. split; [by rewrite Hcache, last_snoc|]. split.
    + intros f Hin. unfold results. rewrite Hf, resolve_all_in.
      * by rewrite (inv_pending s Hinv r f Hin).
      * apply NoDup_elements.
      * by rewrite elem_of_elements.
    + rewrite Hw. by rewrite decide_True.
Qed.

(** A waiting client, then two posts to its room: one that is
    redirected, and one whose redirection is refused because of the
    line feed in [next]. *)
Lemma MessageNewHandler_post_publishes_witness :
  let lf := String "010"%char EmptyString in
  let redirect := λ url, bool_decide ("010"%char ∉ String.list_ascii_of_string url) in
  let s := run init [WaitForMessages "lobby" None] in
  let message := {| msg_id := "u1"; timestamp := "1478217600"; body := "hi" |} in
  (∃ s', MessageNewHandler_post redirect s "u1" "1478217600.52" (Some "hi")
           (Some "/room") "lobby" = Some (Redirect "/room", s')
     ∧ cache_of s' "lobby" = [message]
     ∧ results s' 0 = [[message]])
  ∧ MessageNewHandler_post redirect s "u1" "1478217600.52" (Some "hi")
      (Some ("a" +:+ lf +:+ "b")) "lobby" = None.
Proof.
  split.
  - destruct (MessageNewHandler_post_publishes
                (λ url, bool_decide ("010"%char ∉ String.list_ascii_of_string url))
                [WaitForMessages "lobby" None] "u1" "1478217600.52" "hi"
                (Some "/room") "lobby") as (_ & _ & H).
    destruct H as (answer & s' & E & Ha & Hc & _ & Hw & _); [vm_compute; reflexivity|].
    exists s'. split; [rewrite E, Ha; reflexivity|].
    split; [rewrite Hc; vm_compute; reflexivity|].
    apply Hw. vm_compute. reflexivity.
  - apply (MessageNewHandler_post_publishes
             (λ url, bool_decide ("010"%char ∉ String.list_ascii_of_string url))
             [WaitForMessages "lobby" None] "u1" "1478217600.52" "hi"
             (Some ("a" +:+ String "010"%char EmptyString +:+ "b")) "lobby").
    vm_compute. reflexivity.
Defined.

(** X16. The timestamp of a message is what stands before the first
    dot of the clock reading: [before_dot] returns a string without a
    dot, which is the whole string, or is followed in it by a dot. *)
Theorem before_dot_first_dot (x : string) :
  ("."%char ∉ String.list_ascii_of_string (before_dot x))
  ∧ (x = before_dot x ∨ ∃ rest, x = before_dot x +:+ String "."%char rest).
Proof.
  induction x as [|a x [IHno IHsplit]]; simpl.
  - split; [apply not_elem_of_nil|by left].
  - destruct (decide (a = "."%char)) as [->|Ha]; simpl.
    + split; [apply not_elem_of_nil|]. right. by exists x.
    + split.
      * apply not_elem_of_cons. split; [congruence|done].
      * destruct IHsplit as [E|[rest E]].
        -- left. by f_equal.
        -- right. exists rest.
           change (String a x = String a (before_dot x +:+ String "."%char rest)).
           by rewrite <- E.
Qed.

Example timestamp_of_clock :
  before_dot "1478217600.52" = "1478217600" ∧ before_dot "1478217600" = "1478217600".
Proof. split; reflexivity. Qed.
